(** * Backward schema reconciliation of the model-export component

    A shallow embedding of [ModelExport.rebuild_schema] and
    [ModelExport.rebuild_preprocessing_nodes] from
    [secretflow/component/model_export/model_export.py], followed by the
    properties of the reconciler.

    Conventions of the embedding:
    - a [pa.Schema] is the ordered list of its fields; duplicates are
      representable, as they are in pyarrow;
    - a Python [dict] is an association list kept in insertion order
      (iteration order is observable through the used-columns list);
    - a [PYU] is identified with its party name;
    - statements that may raise return a [Result]; code that mutates the
      builder before raising returns the builder state next to the
      [Result]. *)

From Stdlib Require Import List String Bool.
Import ListNotations.
Local Open Scope string_scope.
Local Open Scope list_scope.

(** ** Python dictionaries, insertion ordered *)

Module Dict.
Section Ops.
Context {V : Type}.

Definition t := list (string * V).

(** [d.get(k)] *)
Fixpoint get (k : string) (d : t) : option V :=
  match d with
  | [] => None
  | (k', v) :: d' => if String.eqb k k' then Some v else get k d'
  end.

(** [k in d] *)
Definition mem (k : string) (d : t) : bool :=
  match get k d with Some _ => true | None => false end.

(** [d[k] = v]: an existing key keeps its position, a new key goes last *)
Fixpoint set (k : string) (v : V) (d : t) : t :=
  match d with
  | [] => [(k, v)]
  | (k', v') :: d' =>
      if String.eqb k k' then (k', v) :: d' else (k', v') :: set k v d'
  end.

End Ops.
Arguments t : clear implicits.
End Dict.

Definition dict (V : Type) : Type := Dict.t V.

(** ** Data model *)

Inductive ServingPhase : Type :=
| PREPROCESSING
| TRAIN_PREDICT
| POSTPROCESSING.

(** [pa.Field]: a column name and its type tag *)
Record Field : Type := mkField { name : string; type : string }.

(** [pa.Schema] *)
Definition Schema : Type := list Field.

(** [schema.names] *)
Definition names (s : Schema) : list string := map name s.

(** [x in l] on a list (or set) of names *)
Definition name_in (x : string) (l : list string) : bool :=
  existsb (String.eqb x) l.

(** [schema.append(f)] *)
Definition append (s : Schema) (f : Field) : Schema := s ++ [f].

(** A party; [PYU(party)] compares and hashes by its party name. *)
Definition PYU : Type := string.

(** ** rebuild_schema *)

(** Body of [for f in trace_schema:], on the three accumulators
    [(new_trace_fields, new_in_fields, new_out_fields)]. *)
Definition trace_step (in_schema out_schema : Schema)
    (acc : list Field * list Field * list Field) (f : Field)
  : list Field * list Field * list Field :=
  let '(new_trace_fields, new_in_fields, new_out_fields) := acc in
  let is_input := name_in (name f) (names in_schema) in
  let is_output := name_in (name f) (names out_schema) in
  let is_added := negb is_input && is_output in
  if is_added then acc
  else
    (new_trace_fields ++ [f],
     if negb is_input then new_in_fields ++ [f] else new_in_fields,
     if negb is_output then new_out_fields ++ [f] else new_out_fields).

(** Body of [for f in in_schema:] *)
Definition input_step (trace_schema : Schema)
    (new_trace_fields : list Field) (f : Field) : list Field :=
  if negb (name_in (name f) (names trace_schema))
  then new_trace_fields ++ [f]
  else new_trace_fields.

(** [rebuild_schema(trace_schema, in_schema, out_schema)].  The two
    [reveal] branches fetch a schema held by a party; on plain schemas they
    do nothing. *)
Definition rebuild_schema (trace_schema in_schema out_schema : Schema)
  : Schema * Schema * Schema :=
  let '(new_trace_fields, new_in_fields, new_out_fields) :=
    fold_left (trace_step in_schema out_schema) trace_schema ([], [], []) in
  let new_trace_fields :=
    fold_left (input_step trace_schema) in_schema new_trace_fields in
  let trace_schema' := new_trace_fields in
  let in_schema' := fold_left append new_in_fields in_schema in
  let out_schema' := fold_left append new_out_fields out_schema in
  (trace_schema', in_schema', out_schema').

(** ** Nodes and builder *)

(** The per-party processing graph carried by a fragment.  The reconciler
    threads it through unread. *)
Inductive Dag : Type :=
| TraceContent (content : string)
| EmptyDag (node_name : string) (schema : Schema).

(** The per-party payload of a node ([node.kwargs[pyu]]); [trace_content]
    is [None] when the payload has no ["trace_content"] entry. *)
Record Kwargs : Type := mkKwargs {
  kw_input_schema : Schema;
  kw_output_schema : Schema;
  trace_content : option Dag
}.

Record ServingNode : Type := mkServingNode {
  node_name : string;
  phase : ServingPhase;
  input_schemas : dict Schema;
  output_schemas : dict Schema;
  kwargs : dict Kwargs
}.

Record ServingBuilder : Type := mkServingBuilder {
  pyus : list PYU;
  nodes : list ServingNode
}.

(** Modelled from the spec: [ServingNode.build_arrow_processing_kwargs] is
    declared outside this file; the payload it builds records the two
    schemas and carries the processing graph unchanged. *)
Definition build_arrow_processing_kwargs
    (in_schema out_schema : Schema) (dag : Dag) : Kwargs :=
  mkKwargs in_schema out_schema (Some dag).

(** Modelled from the spec: [ServingNode.add] is declared outside this
    file; it installs the fragment of one party in the node, in place
    (input schema, output schema and payload). *)
Definition add (node : ServingNode) (pyu : PYU)
    (in_schema out_schema : Schema) (kw : Kwargs) : ServingNode :=
  mkServingNode (node_name node) (phase node)
    (Dict.set pyu in_schema (input_schemas node))
    (Dict.set pyu out_schema (output_schemas node))
    (Dict.set pyu kw (kwargs node)).

(** Modelled from the spec: [Table.from_schema(s).dump_serving_pb(name)] is
    declared outside this file; it yields an empty no-op graph whose input
    and output schema are both [s]. *)
Definition dump_serving_pb (trace_schema : Schema) (nm : string)
  : Dag * Schema * Schema :=
  (EmptyDag nm trace_schema, trace_schema, trace_schema).

(** ** Outcomes *)

Inductive Error : Type :=
| AssertEmptyNodes                      (* assert len(builder.nodes) > 0 *)
| AssertInvalidPhase (p : ServingPhase) (* assert node.phase in [...] *)
| AssertNoOutputSchema (pyu : PYU)      (* assert pyu not in node.output_schemas *)
| AssertNoKwargs (pyu : PYU)            (* assert pyu not in node.kwargs *)
| KeyError (key : string)
| ValueError (invalid_columns : dict (list string)).

Inductive Result (A : Type) : Type :=
| Ok (a : A)
| Err (e : Error).
Arguments Ok {A} a.
Arguments Err {A} e.

(** [d[k]], raising [KeyError] *)
Definition getitem {V : Type} (k : string) (d : dict V) : Result V :=
  match Dict.get k d with
  | Some v => Ok v
  | None => Err (KeyError k)
  end.

Definition bind {A B : Type} (r : Result A) (k : A -> Result B) : Result B :=
  match r with
  | Ok a => k a
  | Err e => Err e
  end.

Notation "x <- r ;; k" := (bind r (fun x => k))
  (at level 61, r at next level, right associativity).
Notation "' p <- r ;; k" := (bind r (fun p => k))
  (at level 61, p pattern, r at next level, right associativity).

(** ** rebuild_preprocessing_nodes *)

(** The first loop: [nodes] collects the nodes up to and including the
    first TRAIN_PREDICT node; any other phase on the way fails the
    assertion.  Nodes after the [break] are not visited. *)
Fixpoint collect_nodes (ns : list ServingNode) : Result (list ServingNode) :=
  match ns with
  | [] => Ok []
  | node :: rest =>
      match phase node with
      | POSTPROCESSING => Err (AssertInvalidPhase POSTPROCESSING)
      | TRAIN_PREDICT => Ok [node]
      | PREPROCESSING =>
          collected <- collect_nodes rest ;; Ok (node :: collected)
      end
  end.

(** [{PYU(party): set(s.names) for party, s in init_schemas.items()}] *)
Definition init_columns_of (init_schemas : dict Schema) : dict (list string) :=
  fold_left (fun d ps => Dict.set (fst ps) (names (snd ps)) d) init_schemas [].

(** Body of [for pyu in builder.pyus:] for one node.  The node is only
    touched by the closing [node.add], so a failure leaves it as it was. *)
Definition rebuild_party (node : ServingNode) (trace_schemas : dict Schema)
    (pyu : PYU) : Result (ServingNode * dict Schema) :=
  let trace_schema :=
    match Dict.get pyu trace_schemas with Some s => s | None => [] end in
  if negb (Dict.mem pyu (input_schemas node)) then
    (* build empty node *)
    if Dict.mem pyu (output_schemas node) then Err (AssertNoOutputSchema pyu)
    else if Dict.mem pyu (kwargs node) then Err (AssertNoKwargs pyu)
    else
      let '(dag, in_schema, out_schema) :=
        dump_serving_pb trace_schema (node_name node) in
      let kw := build_arrow_processing_kwargs in_schema out_schema dag in
      Ok (add node pyu in_schema out_schema kw, trace_schemas)
  else
    node_in <- getitem pyu (input_schemas node) ;;
    node_out <- getitem pyu (output_schemas node) ;;
    let '(trace_schema', in_schema, out_schema) :=
      rebuild_schema trace_schema node_in node_out in
    let trace_schemas' := Dict.set pyu trace_schema' trace_schemas in
    kw0 <- getitem pyu (kwargs node) ;;
    match trace_content kw0 with
    | None => Err (KeyError "trace_content")
    | Some dag =>
        let kw := build_arrow_processing_kwargs in_schema out_schema dag in
        Ok (add node pyu in_schema out_schema kw, trace_schemas')
    end.

(** [for pyu in builder.pyus:] on one node: the node as mutated so far,
    and the trace schemas or the error that stopped the loop. *)
Fixpoint rebuild_node (ps : list PYU) (node : ServingNode)
    (trace_schemas : dict Schema) : ServingNode * Result (dict Schema) :=
  match ps with
  | [] => (node, Ok trace_schemas)
  | pyu :: ps' =>
      match rebuild_party node trace_schemas pyu with
      | Err e => (node, Err e)
      | Ok (node', trace_schemas') => rebuild_node ps' node' trace_schemas'
      end
  end.

(** [for node in reversed(nodes):], taking the nodes already reversed and
    giving them back in the same (reversed) order, mutated so far. *)
Fixpoint rebuild_nodes (ps : list PYU) (rnodes : list ServingNode)
    (trace_schemas : dict Schema)
  : list ServingNode * Result (dict Schema) :=
  match rnodes with
  | [] => ([], Ok trace_schemas)
  | node :: rest =>
      match rebuild_node ps node trace_schemas with
      | (node', Err e) => (node' :: rest, Err e)
      | (node', Ok trace_schemas') =>
          let '(rest', r) := rebuild_nodes ps rest trace_schemas' in
          (node' :: rest', r)
      end
  end.

(** The backward pass over [nodes] (in pipeline order). *)
Definition backward_pass (ps : list PYU) (ns : list ServingNode)
    (trace_schemas : dict Schema)
  : list ServingNode * Result (dict Schema) :=
  let '(rnodes', r) := rebuild_nodes ps (rev ns) trace_schemas in
  (rev rnodes', r).

(** [invalid_columns[party].append(x)] on a [defaultdict(list)] *)
Definition dd_append (party : string) (x : string)
    (d : dict (list string)) : dict (list string) :=
  let l := match Dict.get party d with Some l => l | None => [] end in
  Dict.set party (l ++ [x]) d.

(** Body of [for f in schema:] on [(invalid_columns, used_columns)] *)
Definition check_field (pyu : PYU) (party_init_columns : list string)
    (acc : dict (list string) * list string) (f : Field)
  : dict (list string) * list string :=
  let '(invalid_columns, used_columns) := acc in
  if negb (name_in (name f) party_init_columns)
  then (dd_append pyu (name f) invalid_columns, used_columns)
  else (invalid_columns, used_columns ++ [name f]).

(** [for pyu, schema in trace_schemas.items():] *)
Fixpoint check_parties (init_columns : dict (list string))
    (items : list (PYU * Schema))
    (acc : dict (list string) * list string)
  : Result (dict (list string) * list string) :=
  match items with
  | [] => Ok acc
  | (pyu, schema) :: items' =>
      party_init_columns <- getitem pyu init_columns ;;
      check_parties init_columns items'
        (fold_left (check_field pyu party_init_columns) schema acc)
  end.

(** The validation that closes [rebuild_preprocessing_nodes]. *)
Definition check_columns (init_columns : dict (list string))
    (trace_schemas : dict Schema) : Result (list string) :=
  '(invalid_columns, used_columns) <-
     check_parties init_columns trace_schemas ([], []) ;;
  if Nat.ltb 0 (List.length invalid_columns)
  then Err (ValueError invalid_columns)
  else Ok used_columns.

(** Splits off the last element: [nodes.pop()]. *)
Definition pop {A : Type} (l : list A) : option (list A * A) :=
  match rev l with
  | [] => None
  | x :: r => Some (rev r, x)
  end.

(** [rebuild_preprocessing_nodes(builder, init_schemas)]: the builder as
    the call leaves it, and the used columns or the error raised.

    [nodes] holds references to the leading nodes of [builder.nodes], so
    every [node.add] is visible in the builder: the mutated nodes are put
    back in front of the nodes the first loop did not collect. *)
Definition rebuild_preprocessing_nodes (builder : ServingBuilder)
    (init_schemas : dict Schema) : ServingBuilder * Result (list string) :=
  match nodes builder with
  | [] => (builder, Err AssertEmptyNodes)
  | first :: _ =>
      match phase first with
      | POSTPROCESSING => (builder, Ok [])
      | _ =>
          match collect_nodes (nodes builder) with
          | Err e => (builder, Err e)
          | Ok collected =>
              match pop collected with
              | None => (builder, Ok [])
              | Some (upstream, last_node) =>
                  let init_columns := init_columns_of init_schemas in
                  let trace_schemas := input_schemas last_node in
                  let others := skipn (List.length collected) (nodes builder) in
                  let '(upstream', r) :=
                    backward_pass (pyus builder) upstream trace_schemas in
                  (mkServingBuilder (pyus builder)
                     (upstream' ++ last_node :: others),
                   trace_schemas' <- r ;;
                   check_columns init_columns trace_schemas')
              end
          end
      end
  end.

(** ** Reading the results of [rebuild_schema] *)

Definition new_trace (r : Schema * Schema * Schema) : Schema := fst (fst r).
Definition new_in (r : Schema * Schema * Schema) : Schema := snd (fst r).
Definition new_out (r : Schema * Schema * Schema) : Schema := snd r.

(** The three tests of the loop body, as predicates on a trace field. *)
Definition is_input (in_schema : Schema) (f : Field) : bool :=
  name_in (name f) (names in_schema).
Definition is_output (out_schema : Schema) (f : Field) : bool :=
  name_in (name f) (names out_schema).
Definition is_added (in_schema out_schema : Schema) (f : Field) : bool :=
  negb (is_input in_schema f) && is_output out_schema f.

(** A field of [in_schema] the trace does not know by name. *)
Definition unseen (trace_schema : Schema) (f : Field) : bool :=
  negb (name_in (name f) (names trace_schema)).

(** ** Reading the outcome of the validation *)

(** [invalid_columns] lists column [x] under party [p]. *)
Definition listed (d : dict (list string)) (p x : string) : Prop :=
  exists l, In (p, l) d /\ In x l.

(** Column [x] of party [p]'s trace schema is not a column of [p]'s
    initial table. *)
Definition untraceable (init_columns : dict (list string))
    (trace_schemas : dict Schema) (p x : string) : Prop :=
  exists s cols,
    In (p, s) trace_schemas
    /\ Dict.get p init_columns = Some cols
    /\ In x (names s)
    /\ ~ In x cols.

(** The initial columns of a party, none when the party is unknown. *)
Definition columns_of (init_columns : dict (list string)) (p : string)
  : list string :=
  match Dict.get p init_columns with Some cols => cols | None => [] end.

(** The names of one party's schema that are initial columns, in order. *)
Definition traced_names (init_columns : dict (list string))
    (ps : PYU * Schema) : list string :=
  filter (fun x => name_in x (columns_of init_columns (fst ps)))
    (names (snd ps)).

(** Every party listed in [invalid_columns] has at least one column. *)
Definition entries_nonempty (d : dict (list string)) : Prop :=
  forall p l, In (p, l) d -> l <> [].

(** ** Reading the state of a node *)

(** Party [pyu] has a whole fragment in [node], as [node.add] installs it:
    an input schema, an output schema and a payload built from them. *)
Definition fragment_installed (node : ServingNode) (pyu : PYU) : Prop :=
  exists in_schema out_schema dag,
    Dict.get pyu (input_schemas node) = Some in_schema
    /\ Dict.get pyu (output_schemas node) = Some out_schema
    /\ Dict.get pyu (kwargs node) =
       Some (build_arrow_processing_kwargs in_schema out_schema dag).

(** The failure of [assert node.phase in [...]]. *)
Definition is_phase_error (e : Error) : Prop :=
  match e with AssertInvalidPhase _ => True | _ => False end.

(** The invalid-columns [ValueError]. *)
Definition is_value_error (e : Error) : Prop :=
  match e with ValueError _ => True | _ => False end.

(** ** Example pipelines *)

Definition column (x : string) : Field := mkField x "double".

Definition payload (content : string) : Kwargs :=
  mkKwargs [] [] (Some (TraceContent content)).

(** One party; a preprocessing node turns income into a bucket, the model
    reads age and the bucket. *)
Definition alice_init : dict Schema :=
  [("alice", [column "age"; column "income"])].

Definition bucket_node : ServingNode :=
  mkServingNode "binning" PREPROCESSING
    [("alice", [column "age"; column "income"])]
    [("alice", [column "age"; column "income_bucket"])]
    [("alice", payload "binning_rules")].

Definition model_node : ServingNode :=
  mkServingNode "model" TRAIN_PREDICT
    [("alice", [column "age"; column "income_bucket"])]
    [("alice", [column "score"])]
    [("alice", payload "weights")].

Definition alice_builder : ServingBuilder :=
  mkServingBuilder ["alice"] [bucket_node; model_node].

(** A pipeline that starts at the model: no preprocessing node at all. *)
Definition plain_model_node : ServingNode :=
  mkServingNode "model" TRAIN_PREDICT
    [("alice", [column "age"; column "income"])]
    [("alice", [column "score"])]
    [("alice", payload "weights")].

Definition model_only_builder : ServingBuilder :=
  mkServingBuilder ["alice"] [plain_model_node].

(** A preprocessing node placed after the model. *)
Definition late_preprocessing_builder : ServingBuilder :=
  mkServingBuilder ["alice"] [plain_model_node; bucket_node].

(** A postprocessing node placed before the model. *)
Definition score_node : ServingNode :=
  mkServingNode "score_card" POSTPROCESSING
    [("alice", [column "score"])]
    [("alice", [column "points"])]
    [("alice", payload "card")].

Definition early_postprocessing_builder : ServingBuilder :=
  mkServingBuilder ["alice"] [bucket_node; score_node; model_node].

(** Two parties; the preprocessing node reads, for each of them, a column
    its initial table does not have. *)
Definition two_party_init : dict Schema :=
  [("alice", [column "a"]); ("bob", [column "b"])].

Definition two_party_node : ServingNode :=
  mkServingNode "fillna" PREPROCESSING
    [("alice", [column "a"; column "u"]); ("bob", [column "b"; column "v"])]
    [("alice", [column "a"]); ("bob", [column "b"])]
    [("alice", payload "fill_a"); ("bob", payload "fill_b")].

Definition two_party_model : ServingNode :=
  mkServingNode "model" TRAIN_PREDICT
    [("alice", [column "a"]); ("bob", [column "b"])]
    [("alice", [column "score"])]
    [("alice", payload "w_a"); ("bob", payload "w_b")].

Definition two_party_builder : ServingBuilder :=
  mkServingBuilder ["alice"; "bob"] [two_party_node; two_party_model].

(** Every schema of the dictionary names each of its fields once. *)
Definition unique_names (d : dict Schema) : Prop :=
  forall p s, In (p, s) d -> NoDup (names s).

(** ** Reading schemas out of a dictionary *)

(** [d.get(p, pa.schema([]))] *)
Definition schema_of (d : dict Schema) (p : string) : Schema :=
  match Dict.get p d with Some s => s | None => [] end.

(** Two schemas name the same columns. *)
Definition same_names (s1 s2 : Schema) : Prop :=
  forall x, In x (names s1) <-> In x (names s2).

(** ** What the backward pass keeps of a node *)

(** Node [n'] has the name and phase of [n] and, for every party outside
    [ps], the same input schema, output schema and payload. *)
Definition same_outside (ps : list PYU) (n n' : ServingNode) : Prop :=
  node_name n' = node_name n
  /\ phase n' = phase n
  /\ forall q, ~ In q ps ->
       Dict.get q (input_schemas n') = Dict.get q (input_schemas n)
       /\ Dict.get q (output_schemas n') = Dict.get q (output_schemas n)
       /\ Dict.get q (kwargs n') = Dict.get q (kwargs n).

(** [node.kwargs[p]["trace_content"]], when both keys are there. *)
Definition payload_of (n : ServingNode) (p : PYU) : option Dag :=
  match Dict.get p (kwargs n) with
  | Some kw => trace_content kw
  | None => None
  end.

(** Every party with an input schema in [n] still has one in [n'], around
    the same processing graph. *)
Definition same_payloads (n n' : ServingNode) : Prop :=
  forall q,
    Dict.mem q (input_schemas n) = true ->
    Dict.mem q (input_schemas n') = true /\ payload_of n' q = payload_of n q.

(** A node's fragment for party [p] is whole or absent: either the node
    records nothing for [p], or it records an input schema, an output
    schema and a payload with its processing graph. *)
Definition well_populated (n : ServingNode) (p : PYU) : Prop :=
  (Dict.mem p (input_schemas n) = false
   /\ Dict.mem p (output_schemas n) = false
   /\ Dict.mem p (kwargs n) = false)
  \/ (Dict.mem p (input_schemas n) = true
      /\ Dict.mem p (output_schemas n) = true
      /\ exists dag, payload_of n p = Some dag).

(** For party [p], the output schema of [a] names every column the input
    schema of [b] names: [b] can be run on what [a] produces. *)
Definition feeds (a b : ServingNode) (p : PYU) : Prop :=
  incl (names (schema_of (input_schemas b) p))
       (names (schema_of (output_schemas a) p)).

(** Down the visiting order of the backward pass ([rnodes'] starts with the
    node visited first, the one furthest downstream): the output schema of
    each node provides, for every party of [ps], the columns [expected]
    just downstream of it, namely the columns of the input schema of the
    node visited before it. *)
Fixpoint linked (ps : list PYU) (expected : PYU -> Schema)
    (rnodes' : list ServingNode) : Prop :=
  match rnodes' with
  | [] => True
  | n' :: rest =>
      (forall p, In p ps ->
         incl (names (expected p)) (names (schema_of (output_schemas n') p)))
      /\ linked ps (schema_of (input_schemas n')) rest
  end.

(** ** Reading two states of the same loop *)

(** Two trace dictionaries give every party the same trace schema. *)
Definition same_traces (t u : dict Schema) : Prop :=
  forall p, schema_of t p = schema_of u p.

(** Nodes [m] and [n] hold the same fragment for party [p]. *)
Definition agree_on (p : PYU) (m n : ServingNode) : Prop :=
  Dict.get p (input_schemas m) = Dict.get p (input_schemas n)
  /\ Dict.get p (output_schemas m) = Dict.get p (output_schemas n)
  /\ Dict.get p (kwargs m) = Dict.get p (kwargs n).

(** Two outcomes of the loops agree: the same error, or trace schemas that
    give every party the same schema. *)
Definition same_outcome (r r' : Result (dict Schema)) : Prop :=
  match r, r' with
  | Ok t, Ok u => same_traces t u
  | Err e, Err e' => e = e'
  | _, _ => False
  end.

(** A model that reads for a party the initial table does not know. *)
Definition carol_model : ServingNode :=
  mkServingNode "model" TRAIN_PREDICT
    [("alice", [column "a"]); ("carol", [])]
    [("alice", [column "score"])]
    [("alice", payload "w_a")].

Definition carol_builder : ServingBuilder :=
  mkServingBuilder ["alice"; "bob"] [carol_model].

(** ** The helpers of [evaluate] *)

(** The annotation of a parameter of [comp.export]: none ([param.empty]),
    one of the two classes the caller supplies itself, or anything else. *)
Inductive Annotation : Type :=
| NoAnnotation
| ContextAnnotation
| ServingBuilderAnnotation
| OtherAnnotation (type_name : string).

(** [param_type is not param.empty and param_type in [Context, ServingBuilder]] *)
Definition supplied_by_caller (param_type : Annotation) : bool :=
  match param_type with
  | ContextAnnotation | ServingBuilderAnnotation => true
  | NoAnnotation | OtherAnnotation _ => false
  end.

Section ExportKwargs.
Context {Value : Type}.

(** Body of [for name, param in sig.parameters.items():] on [kwargs];
    [self_dict] is [self.__dict__]. *)
Definition export_kwargs_step (self_dict : dict Value) (kwargs : dict Value)
    (parameter : string * Annotation) : dict Value :=
  let '(nm, param_type) := parameter in
  if supplied_by_caller param_type then kwargs
  else
    match Dict.get nm self_dict with
    | Some v => Dict.set nm v kwargs
    | None => kwargs
    end.

(** [get_export_kwargs(self, comp)], on the signature of [comp.export]. *)
Definition get_export_kwargs (self_dict : dict Value)
    (sig : list (string * Annotation)) : dict Value :=
  fold_left (export_kwargs_step self_dict) sig [].

End ExportKwargs.

(** [DistData.type], as far as this file tests it *)
Inductive DistDataType : Type :=
| VERTICAL_TABLE
| SERVING_MODEL
| REPORT
| OTHER_TYPE (type_name : string).

Record DistData : Type := mkDistData {
  dd_name : string;
  dd_type : DistDataType
}.

Record NodeEvalParam : Type := mkNodeEvalParam { comp_id : string }.

(** What this file reads of a component [Definition]. *)
Record CompDefinition : Type := mkCompDefinition {
  version : string;
  get_input_defs : nat -> list string;
  get_output_defs : nat -> list string
}.

(** The exceptions of [get_init_table]; [ForeignError] stands for whatever
    [VTable.from_distdata] raises. *)
Inductive ExportError : Type :=
| IndexError
| AttributeError (attribute : string)
| InvalidArgumentError (msg : string)
| ForeignError (msg : string).

Inductive Outcome (A : Type) : Type :=
| Returned (a : A)
| Raised (e : ExportError).
Arguments Returned {A} a.
Arguments Raised {A} e.

(** [d.type == DistDataType.VERTICAL_TABLE] *)
Definition is_vertical_table (d : DistData) : bool :=
  match dd_type d with VERTICAL_TABLE => true | _ => false end.

Section InitTable.
(** [Registry.get_definition_by_id], [Definition.parse_minor] and
    [VTable.from_distdata] live in other modules. *)
Variable get_definition_by_id : string -> option CompDefinition.
Variable parse_minor : string -> nat.
Variable VTable : Type.
Variable from_distdata : DistData -> Outcome VTable.

(** [get_init_table(input_datasets, component_eval_params)] *)
Definition get_init_table (input_datasets : list DistData)
    (component_eval_params : list NodeEvalParam) : Outcome VTable :=
  match component_eval_params with
  | [] => Raised IndexError
  | first_param :: _ =>
      match get_definition_by_id (comp_id first_param) with
      | None => Raised (AttributeError "version")
      | Some comp_def =>
          let minor := parse_minor (version comp_def) in
          let dist_datas :=
            firstn (List.length (get_input_defs comp_def minor))
              input_datasets in
          let v_tables := filter is_vertical_table dist_datas in
          if negb (Nat.eqb (List.length v_tables) 1)
          then Raised (InvalidArgumentError
                         "only support one vertical_table input for now")
          else
            match v_tables with
            | d :: _ => from_distdata d
            | [] => Raised IndexError
            end
      end
  end.

End InitTable.

(** A registry with one two-input component, and the datasets of an
    export whose second input is the vertical table. *)
Definition binning_definition : CompDefinition :=
  mkCompDefinition "1.0.0" (fun _ => ["rules"; "input_ds"]) (fun _ => ["output_ds"]).

Definition example_registry (id : string) : option CompDefinition :=
  if String.eqb id "preprocessing/binning" then Some binning_definition
  else None.

Definition example_datasets : list DistData :=
  [mkDistData "rules" (OTHER_TYPE "sf.rule.binning");
   mkDistData "train" VERTICAL_TABLE;
   mkDistData "test" VERTICAL_TABLE].

(** Both schema dictionaries of the node name each field once. *)
Definition node_names_unique (n : ServingNode) : Prop :=
  unique_names (input_schemas n) /\ unique_names (output_schemas n).




(** One party; the first node reads column x and consumes it, the second
    node makes a column of the same name, which the model reads. *)
Definition recycled_init : dict Schema :=
  [("alice", [column "a"; column "x"])].

Definition consume_x : ServingNode :=
  mkServingNode "consume_x" PREPROCESSING
    [("alice", [column "a"; column "x"])]
    [("alice", [column "a"])]
    [("alice", payload "fold_x_into_a")].

Definition make_x : ServingNode :=
  mkServingNode "make_x" PREPROCESSING
    [("alice", [column "a"])]
    [("alice", [column "a"; column "x"])]
    [("alice", payload "derive_x")].

Definition recycled_model : ServingNode :=
  mkServingNode "model" TRAIN_PREDICT
    [("alice", [column "a"; column "x"])]
    [("alice", [column "score"])]
    [("alice", payload "weights")].

Definition recycled_builder : ServingBuilder :=
  mkServingBuilder ["alice"] [consume_x; make_x; recycled_model].

(** Node [n] manufactures column [x] for party [p]: the output schema it
    records for [p] names [x], the input schema it records for [p] does
    not. *)
Definition manufactures (n : ServingNode) (p : PYU) (x : string) : Prop :=
  In x (names (schema_of (output_schemas n) p))
  /\ ~ In x (names (schema_of (input_schemas n) p)).

(** * Properties *)

(** ** Names and membership *)

Lemma name_in_In (x : string) (l : list string) :
  name_in x l = true <-> In x l.
Proof.
  unfold name_in. rewrite existsb_exists. split.
  - intros [y [Hy Heq]]. apply String.eqb_eq in Heq. now subst.
  - intros H. exists x. split; [assumption | apply String.eqb_refl].
Qed.

Lemma name_in_not_In (x : string) (l : list string) :
  name_in x l = false <-> ~ In x l.
Proof.
  rewrite <- name_in_In. destruct (name_in x l); split; intros H;
    try reflexivity; try discriminate; try (intros H'; discriminate).
  exfalso. now apply H.
Qed.

Lemma In_names (f : Field) (s : Schema) : In f s -> In (name f) (names s).
Proof. intros H. unfold names. now apply in_map. Qed.

Lemma names_app (s1 s2 : Schema) : names (s1 ++ s2) = names s1 ++ names s2.
Proof. unfold names. apply map_app. Qed.

Lemma NoDup_names_filter (p : Field -> bool) (s : Schema) :
  NoDup (names s) -> NoDup (names (filter p s)).
Proof.
  induction s as [| f s IH]; simpl; intros H; [constructor |].
  inversion H as [| x l Hnotin Hnd]; subst.
  destruct (p f); simpl.
  - constructor; [| now apply IH].
    intros Hin. apply Hnotin. unfold names in *.
    apply in_map_iff in Hin. destruct Hin as [g [Hg Hin]].
    apply filter_In in Hin. apply in_map_iff. exists g. tauto.
  - now apply IH.
Qed.

Lemma filter_all (A : Type) (p : A -> bool) (l : list A) :
  (forall x, In x l -> p x = true) -> filter p l = l.
Proof.
  intros H. apply forallb_filter_id. apply forallb_forall. exact H.
Qed.

Lemma filter_none (A : Type) (p : A -> bool) (l : list A) :
  (forall x, In x l -> p x = false) -> filter p l = [].
Proof.
  induction l as [| a l IH]; simpl; intros H; [reflexivity |].
  rewrite (H a (or_introl eq_refl)). apply IH. intros x Hx. apply H. now right.
Qed.

(** ** The loops of [rebuild_schema] in closed form *)

Lemma fold_trace_step (in_schema out_schema : Schema) (fs : list Field) :
  forall a b c,
    fold_left (trace_step in_schema out_schema) fs (a, b, c) =
    (a ++ filter (fun f => negb (is_added in_schema out_schema f)) fs,
     b ++ filter (fun f => negb (is_added in_schema out_schema f)
                           && negb (is_input in_schema f)) fs,
     c ++ filter (fun f => negb (is_added in_schema out_schema f)
                           && negb (is_output out_schema f)) fs).
Proof.
  induction fs as [| f fs IH]; intros a b c; simpl.
  - now rewrite !app_nil_r.
  - unfold trace_step at 1, is_added, is_input, is_output.
    destruct (name_in (name f) (names in_schema));
      destruct (name_in (name f) (names out_schema)); simpl;
      rewrite IH; unfold is_added, is_input, is_output;
      rewrite <- ?app_assoc; reflexivity.
Qed.

Lemma fold_input_step (trace_schema : Schema) (fs : list Field) :
  forall acc,
    fold_left (input_step trace_schema) fs acc =
    acc ++ filter (unseen trace_schema) fs.
Proof.
  induction fs as [| f fs IH]; intros acc; simpl.
  - now rewrite app_nil_r.
  - rewrite IH. unfold input_step, unseen.
    destruct (name_in (name f) (names trace_schema)); simpl;
      rewrite <- ?app_assoc; reflexivity.
Qed.

Lemma fold_append (fs : list Field) :
  forall s, fold_left append fs s = s ++ fs.
Proof.
  induction fs as [| f fs IH]; intros s; simpl.
  - now rewrite app_nil_r.
  - rewrite IH. unfold append. now rewrite <- app_assoc.
Qed.

Lemma rebuild_schema_eq (trace_schema in_schema out_schema : Schema) :
  rebuild_schema trace_schema in_schema out_schema =
  (filter (fun f => negb (is_added in_schema out_schema f)) trace_schema
     ++ filter (unseen trace_schema) in_schema,
   in_schema
     ++ filter (fun f => negb (is_added in_schema out_schema f)
                         && negb (is_input in_schema f)) trace_schema,
   out_schema
     ++ filter (fun f => negb (is_added in_schema out_schema f)
                         && negb (is_output out_schema f)) trace_schema).
Proof.
  unfold rebuild_schema. rewrite fold_trace_step. simpl.
  now rewrite fold_input_step, !fold_append.
Qed.

(** ** The validation of one party's schema in closed form *)

Lemma fold_check_field_used (pyu : PYU) (cols : list string) (s : Schema) :
  forall acc,
    snd (fold_left (check_field pyu cols) s acc) =
    snd acc ++ filter (fun x => name_in x cols) (names s).
Proof.
  induction s as [| f s IH]; intros [inv used]; simpl.
  - now rewrite app_nil_r.
  - rewrite IH. destruct (name_in (name f) cols); simpl.
    + now rewrite <- app_assoc.
    + reflexivity.
Qed.

(** ** Properties of [rebuild_schema] *)

(** One call drops a manufactured column.  A trace field whose name is in
    [out_schema] but not in [in_schema] is dropped: no field of the new
    trace schema carries its name, so the name is not handed to the
    upstream trace, and validating the new trace schema adds it to no
    used-columns list. *)
Lemma rebuild_schema_drops_manufactured
    (trace_schema in_schema out_schema : Schema) (f : Field) :
  In f trace_schema ->
  is_output out_schema f = true ->
  is_input in_schema f = false ->
  let trace_schema' :=
    new_trace (rebuild_schema trace_schema in_schema out_schema) in
  ~ In f trace_schema'
  /\ ~ In (name f) (names trace_schema')
  /\ forall pyu cols invalid_columns used_columns,
       ~ In (name f) used_columns ->
       ~ In (name f)
           (snd (fold_left (check_field pyu cols) trace_schema'
                   (invalid_columns, used_columns))).
Proof.
  intros Hin Hout Hnin. rewrite rebuild_schema_eq. unfold new_trace. simpl.
  assert (Hname : ~ In (name f)
            (names (filter (fun g => negb (is_added in_schema out_schema g))
                      trace_schema
                    ++ filter (unseen trace_schema) in_schema))).
  { rewrite names_app, in_app_iff. intros [H | H].
    - unfold names in H. apply in_map_iff in H. destruct H as [g [Hg H]].
      apply filter_In in H. destruct H as [_ H].
      unfold is_added, is_input, is_output in *. rewrite Hg in H.
      rewrite Hout, Hnin in H. discriminate.
    - unfold names in H. apply in_map_iff in H. destruct H as [g [Hg H]].
      apply filter_In in H. destruct H as [H _].
      apply In_names in H. rewrite Hg in H.
      apply name_in_In in H. unfold is_input in Hnin. congruence. }
  split; [| split].
  - intros H. apply Hname. now apply In_names.
  - exact Hname.
  - intros pyu cols inv used Hused. rewrite fold_check_field_used. simpl.
    rewrite in_app_iff. intros [H | H]; [now apply Hused |].
    apply filter_In in H. now apply Hname.
Qed.

Lemma rebuild_schema_drops_manufactured_witness :
  let trace_schema' :=
    new_trace
      (rebuild_schema
         [column "age"; column "income_bucket"]
         [column "age"; column "income"]
         [column "age"; column "income_bucket"]) in
  ~ In (column "income_bucket") trace_schema'
  /\ ~ In (name (column "income_bucket")) (names trace_schema')
  /\ forall pyu cols invalid_columns used_columns,
       ~ In (name (column "income_bucket")) used_columns ->
       ~ In (name (column "income_bucket"))
           (snd (fold_left (check_field pyu cols) trace_schema'
                   (invalid_columns, used_columns))).
Proof.
  apply (rebuild_schema_drops_manufactured
           [column "age"; column "income_bucket"]
           [column "age"; column "income"]
           [column "age"; column "income_bucket"]
           (column "income_bucket")).
  - simpl. right. left. reflexivity.
  - reflexivity.
  - reflexivity.
Defined.

(** C6. A field of [in_schema] whose name the trace schema lacks is
    appended to the new trace schema: the new trace is the kept trace
    fields followed by those input fields, in the order of [in_schema]. *)
Theorem rebuild_schema_adds_unseen_input
    (trace_schema in_schema out_schema : Schema) (f : Field) :
  In f in_schema ->
  name_in (name f) (names trace_schema) = false ->
  let trace_schema' :=
    new_trace (rebuild_schema trace_schema in_schema out_schema) in
  In f trace_schema'
  /\ exists kept_fields appended,
       trace_schema' = kept_fields ++ appended
       /\ incl kept_fields trace_schema
       /\ In f appended
       /\ appended = filter (unseen trace_schema) in_schema.
Proof.
  intros Hin Hun. rewrite rebuild_schema_eq. unfold new_trace. simpl.
  assert (Hf : In f (filter (unseen trace_schema) in_schema)).
  { apply filter_In. split; [assumption |]. unfold unseen. now rewrite Hun. }
  split.
  - apply in_or_app. now right.
  - eexists. eexists. split; [reflexivity |].
    split; [| split; [exact Hf | reflexivity]].
    intros g Hg. apply filter_In in Hg. tauto.
Qed.

Lemma rebuild_schema_adds_unseen_input_witness :
  let trace_schema' :=
    new_trace
      (rebuild_schema
         [column "age"; column "income_bucket"]
         [column "age"; column "income"]
         [column "age"; column "income_bucket"]) in
  In (column "income") trace_schema'
  /\ exists kept_fields appended,
       trace_schema' = kept_fields ++ appended
       /\ incl kept_fields [column "age"; column "income_bucket"]
       /\ In (column "income") appended
       /\ appended
          = filter (unseen [column "age"; column "income_bucket"])
              [column "age"; column "income"].
Proof.
  apply (rebuild_schema_adds_unseen_input
           [column "age"; column "income_bucket"]
           [column "age"; column "income"]
           [column "age"; column "income_bucket"]
           (column "income")).
  - simpl. right. left. reflexivity.
  - reflexivity.
Defined.

(** C7. Repairing the repaired trace again, against the same [in_schema]
    and [out_schema], gives the repaired trace back. *)
Theorem rebuild_schema_trace_fixed_point
    (trace_schema in_schema out_schema : Schema) :
  new_trace
    (rebuild_schema
       (new_trace (rebuild_schema trace_schema in_schema out_schema))
       in_schema out_schema)
  = new_trace (rebuild_schema trace_schema in_schema out_schema).
Proof.
  rewrite !rebuild_schema_eq. unfold new_trace. simpl.
  set (kept := filter (fun f => negb (is_added in_schema out_schema f))
                 trace_schema).
  set (extra := filter (unseen trace_schema) in_schema).
  rewrite (filter_all _ _ (kept ++ extra)).
  - rewrite (filter_none _ (unseen (kept ++ extra)) in_schema).
    + apply app_nil_r.
    + intros g Hg. unfold unseen. apply negb_false_iff. apply name_in_In.
      rewrite names_app, in_app_iff.
      destruct (name_in (name g) (names trace_schema)) eqn:Hseen.
      * left. apply name_in_In in Hseen. unfold names in Hseen.
        apply in_map_iff in Hseen. destruct Hseen as [h [Hh Hin]].
        rewrite <- Hh. apply In_names. subst kept. apply filter_In.
        split; [assumption |]. unfold is_added, is_input. rewrite Hh.
        assert (Hgi : name_in (name g) (names in_schema) = true)
          by (apply name_in_In; now apply In_names).
        now rewrite Hgi.
      * right. apply In_names. subst extra. apply filter_In.
        split; [assumption |]. unfold unseen. now rewrite Hseen.
  - intros g Hg. apply in_app_or in Hg. destruct Hg as [Hg | Hg].
    + subst kept. apply filter_In in Hg. tauto.
    + subst extra. apply filter_In in Hg. destruct Hg as [Hg _].
      unfold is_added, is_input.
      assert (Hgi : name_in (name g) (names in_schema) = true)
        by (apply name_in_In; now apply In_names).
      now rewrite Hgi.
Qed.

(** The three schemas of [rebuild_schema], one at a time. *)

Lemma new_trace_NoDup (trace_schema in_schema out_schema : Schema) :
  NoDup (names trace_schema) ->
  NoDup (names in_schema) ->
  NoDup (names (new_trace (rebuild_schema trace_schema in_schema out_schema))).
Proof.
  intros Ht Hi. rewrite rebuild_schema_eq. unfold new_trace. simpl.
  rewrite names_app.
  apply NoDup_app; try now apply NoDup_names_filter.
  intros x Hx Hx'. unfold names in Hx, Hx'.
  apply in_map_iff in Hx. destruct Hx as [g [Hg Hx]].
  apply in_map_iff in Hx'. destruct Hx' as [h [Hh Hx']].
  apply filter_In in Hx. apply filter_In in Hx'.
  destruct Hx as [Hx _]. destruct Hx' as [_ Hx'].
  unfold unseen in Hx'. apply negb_true_iff in Hx'.
  apply name_in_not_In in Hx'. apply Hx'. rewrite Hh, <- Hg.
  now apply In_names.
Qed.

Lemma new_in_NoDup (trace_schema in_schema out_schema : Schema) :
  NoDup (names trace_schema) ->
  NoDup (names in_schema) ->
  NoDup (names (new_in (rebuild_schema trace_schema in_schema out_schema))).
Proof.
  intros Ht Hi. rewrite rebuild_schema_eq. unfold new_in. simpl.
  rewrite names_app.
  apply NoDup_app; try assumption; try now apply NoDup_names_filter.
  intros x Hx Hx'. unfold names in Hx'.
  apply in_map_iff in Hx'. destruct Hx' as [h [Hh Hx']].
  apply filter_In in Hx'. destruct Hx' as [_ Hx'].
  apply andb_true_iff in Hx'. destruct Hx' as [_ Hx'].
  unfold is_input in Hx'. apply negb_true_iff in Hx'.
  apply name_in_not_In in Hx'. apply Hx'. now rewrite Hh.
Qed.

Lemma new_out_NoDup (trace_schema in_schema out_schema : Schema) :
  NoDup (names trace_schema) ->
  NoDup (names out_schema) ->
  NoDup (names (new_out (rebuild_schema trace_schema in_schema out_schema))).
Proof.
  intros Ht Ho. rewrite rebuild_schema_eq. unfold new_out. simpl.
  rewrite names_app.
  apply NoDup_app; try assumption; try now apply NoDup_names_filter.
  intros x Hx Hx'. unfold names in Hx'.
  apply in_map_iff in Hx'. destruct Hx' as [h [Hh Hx']].
  apply filter_In in Hx'. destruct Hx' as [_ Hx'].
  apply andb_true_iff in Hx'. destruct Hx' as [_ Hx'].
  unfold is_output in Hx'. apply negb_true_iff in Hx'.
  apply name_in_not_In in Hx'. apply Hx'. now rewrite Hh.
Qed.

(** C9. When the trace, input and output schema each name every field
    once, so do the three schemas [rebuild_schema] returns. *)
Theorem rebuild_schema_names_unique
    (trace_schema in_schema out_schema : Schema) :
  NoDup (names trace_schema) ->
  NoDup (names in_schema) ->
  NoDup (names out_schema) ->
  let r := rebuild_schema trace_schema in_schema out_schema in
  NoDup (names (new_trace r))
  /\ NoDup (names (new_in r))
  /\ NoDup (names (new_out r)).
Proof.
  intros Ht Hi Ho r. subst r. split; [| split].
  - now apply new_trace_NoDup.
  - now apply new_in_NoDup.
  - now apply new_out_NoDup.
Qed.

Lemma rebuild_schema_names_unique_witness :
  let r :=
    rebuild_schema
      [column "age"; column "income_bucket"; column "weight"]
      [column "age"; column "income"]
      [column "age"; column "income_bucket"] in
  NoDup (names (new_trace r))
  /\ NoDup (names (new_in r))
  /\ NoDup (names (new_out r)).
Proof.
  apply (rebuild_schema_names_unique
           [column "age"; column "income_bucket"; column "weight"]
           [column "age"; column "income"]
           [column "age"; column "income_bucket"]).
  - simpl. repeat constructor; simpl; intros H;
      repeat (destruct H as [H | H]; [discriminate |]); exact H.
  - simpl. repeat constructor; simpl; intros H;
      repeat (destruct H as [H | H]; [discriminate |]); exact H.
  - simpl. repeat constructor; simpl; intros H;
      repeat (destruct H as [H | H]; [discriminate |]); exact H.
Defined.

(** ** Dictionaries *)

Lemma get_set_same (V : Type) (k : string) (v : V) (d : dict V) :
  Dict.get k (Dict.set k v d) = Some v.
Proof.
  induction d as [| [k' v'] d IH]; simpl.
  - now rewrite String.eqb_refl.
  - destruct (String.eqb k k') eqn:E; simpl; rewrite E; [reflexivity | exact IH].
Qed.

Lemma get_set_other (V : Type) (k k' : string) (v : V) (d : dict V) :
  k <> k' -> Dict.get k' (Dict.set k v d) = Dict.get k' d.
Proof.
  intros Hne. induction d as [| [k0 v0] d IH]; simpl.
  - apply String.eqb_neq in Hne. rewrite String.eqb_sym in Hne. now rewrite Hne.
  - destruct (String.eqb k k0) eqn:E; simpl.
    + apply String.eqb_eq in E. subst k0.
      apply String.eqb_neq in Hne. rewrite String.eqb_sym in Hne.
      now rewrite Hne.
    + destruct (String.eqb k' k0); [reflexivity | exact IH].
Qed.

Lemma In_set (V : Type) (k : string) (v : V) (d : dict V) (p : string) (w : V) :
  In (p, w) (Dict.set k v d) -> (p = k /\ w = v) \/ In (p, w) d.
Proof.
  induction d as [| [k' v'] d IH]; simpl.
  - intros [H | []]. inversion H. now left.
  - destruct (String.eqb k k') eqn:E; simpl.
    + apply String.eqb_eq in E. subst k'.
      intros [H | H]; [inversion H; now left | right; now right].
    + intros [H | H]; [right; now left |].
      destruct (IH H) as [H' | H']; [now left | right; now right].
Qed.

Lemma get_In (V : Type) (k : string) (v : V) (d : dict V) :
  Dict.get k d = Some v -> In (k, v) d.
Proof.
  induction d as [| [k' v'] d IH]; simpl; [discriminate |].
  destruct (String.eqb k k') eqn:E.
  - apply String.eqb_eq in E. subst k'. intros H. inversion H. now left.
  - intros H. right. now apply IH.
Qed.

(** Where an entry of [d] goes when key [k] is set. *)
Lemma In_set_old (V : Type) (k : string) (v : V) (d : dict V)
    (p : string) (w : V) :
  In (p, w) d ->
  In (p, w) (Dict.set k v d) \/ (p = k /\ Dict.get k d = Some w).
Proof.
  induction d as [| [k' v'] d IH]; simpl; [intros [] |].
  destruct (String.eqb k k') eqn:E.
  - apply String.eqb_eq in E. subst k'.
    intros [H | H]; [inversion H; subst; now right | left; now right].
  - intros [H | H]; [left; now left |].
    destruct (IH H) as [H' | H']; [left; now right | now right].
Qed.

Lemma In_set_new (V : Type) (k : string) (v : V) (d : dict V) :
  In (k, v) (Dict.set k v d).
Proof.
  induction d as [| [k' v'] d IH]; simpl; [now left |].
  destruct (String.eqb k k') eqn:E; simpl.
  - apply String.eqb_eq in E. subst k'. now left.
  - now right.
Qed.

(** ** The initial columns *)

Lemma init_columns_fold (init_schemas : dict Schema) :
  forall (acc : dict (list string)) (p : string) (cols : list string),
    Dict.get p
      (fold_left (fun d ps => Dict.set (fst ps) (names (snd ps)) d)
         init_schemas acc) = Some cols ->
    Dict.get p acc = Some cols
    \/ exists s, In (p, s) init_schemas /\ cols = names s.
Proof.
  induction init_schemas as [| [q s] rest IH]; intros acc p cols; simpl.
  - now left.
  - intros H. apply IH in H. destruct H as [H | [s' [Hin Heq]]].
    + destruct (string_dec q p) as [-> | Hne].
      * rewrite get_set_same in H. inversion H. right. exists s. now split; [left |].
      * rewrite get_set_other in H by assumption. now left.
    + right. exists s'. split; [now right | assumption].
Qed.

Lemma init_columns_of_In (init_schemas : dict Schema) (p : string)
    (cols : list string) :
  Dict.get p (init_columns_of init_schemas) = Some cols ->
  exists s, In (p, s) init_schemas /\ cols = names s.
Proof.
  intros H. apply init_columns_fold in H. destruct H as [H | H];
    [discriminate | exact H].
Qed.

(** ** The validation loop *)

Lemma dd_append_listed (k v : string) (d : dict (list string)) (p x : string) :
  listed (dd_append k v d) p x <-> listed d p x \/ (p = k /\ x = v).
Proof.
  unfold dd_append, listed. split.
  - intros [l [Hin Hx]]. apply In_set in Hin. destruct Hin as [[-> ->] | Hin].
    + apply in_app_or in Hx. destruct Hx as [Hx | [<- | []]]; [| now right].
      left. destruct (Dict.get k d) as [l0 |] eqn:E; [| destruct Hx].
      exists l0. split; [now apply get_In | assumption].
    + left. now exists l.
  - intros [[l [Hin Hx]] | [-> ->]].
    + destruct (In_set_old _ k
                  (match Dict.get k d with Some l0 => l0 | None => [] end
                   ++ [v]) d p l Hin) as [H | [-> H]].
      * now exists l.
      * rewrite H. exists (l ++ [v]). split; [apply In_set_new |].
        apply in_or_app. now left.
    + eexists. split; [apply In_set_new |]. apply in_or_app. right. now left.
Qed.

Lemma fold_check_field_listed (pyu : PYU) (cols : list string) (s : Schema) :
  forall acc p x,
    listed (fst (fold_left (check_field pyu cols) s acc)) p x <->
    listed (fst acc) p x \/ (p = pyu /\ In x (names s) /\ ~ In x cols).
Proof.
  induction s as [| f s IH]; intros [inv used] p x; simpl.
  - tauto.
  - rewrite IH. destruct (name_in (name f) cols) eqn:E; simpl.
    + apply name_in_In in E. split.
      * intros [H | [H1 [H2 H3]]]; [now left | right; tauto].
      * intros [H | [H1 [[H2 | H2] H3]]]; [now left | | right; tauto].
        subst x. contradiction.
    + apply name_in_not_In in E. rewrite dd_append_listed. split.
      * intros [[H | [H1 H2]] | [H1 [H2 H3]]]; [now left | | right; tauto].
        subst. right. tauto.
      * intros [H | [H1 [[H2 | H2] H3]]]; [left; now left | | right; tauto].
        subst. left. now right.
Qed.

Lemma fold_check_field_nonempty (pyu : PYU) (cols : list string) (s : Schema) :
  forall acc,
    entries_nonempty (fst acc) ->
    entries_nonempty (fst (fold_left (check_field pyu cols) s acc)).
Proof.
  induction s as [| f s IH]; intros [inv used] H; simpl; [exact H |].
  apply IH. destruct (name_in (name f) cols); simpl; [exact H |].
  intros p l Hin. unfold dd_append in Hin. apply In_set in Hin.
  destruct Hin as [[_ ->] | Hin]; [| now apply (H p)].
  intros Hnil. apply app_eq_nil in Hnil. destruct Hnil as [_ Hnil]. discriminate.
Qed.

Lemma check_parties_spec (init_columns : dict (list string))
    (items : dict Schema) :
  forall acc res,
    check_parties init_columns items acc = Ok res ->
    (forall p s, In (p, s) items -> Dict.mem p init_columns = true)
    /\ (forall p x,
          listed (fst res) p x <->
          listed (fst acc) p x \/ untraceable init_columns items p x)
    /\ snd res = snd acc ++ flat_map (traced_names init_columns) items
    /\ (entries_nonempty (fst acc) -> entries_nonempty (fst res)).
Proof.
  induction items as [| [pyu schema] items IH]; intros acc res; simpl.
  - intros H. inversion H; subst. repeat split.
    + intros p s [].
    + now left.
    + intros [H' | [s [cols [[] _]]]]. exact H'.
    + now rewrite app_nil_r.
    + auto.
  - unfold getitem. destruct (Dict.get pyu init_columns) as [cols |] eqn:E;
      simpl; [| discriminate].
    intros H. apply IH in H. destruct H as [Hmem [Hl [Hu Hne]]].
    repeat split.
    + intros p s [Heq | Hin]; [| now apply (Hmem p s)].
      inversion Heq; subst. unfold Dict.mem. now rewrite E.
    + rewrite Hl, fold_check_field_listed. intros [[H | [-> [H1 H2]]] | H].
      * now left.
      * right. exists schema, cols.
        split; [now left | split; [exact E | split; assumption]].
      * right. destruct H as [s [c [H1 H2]]]. exists s, c. split; [now right | exact H2].
    + rewrite Hl, fold_check_field_listed.
      intros [H | [s [c [[Heq | Hin] [H1 [H2 H3]]]]]].
      * left. now left.
      * inversion Heq; subst. left. right. rewrite E in H1. inversion H1; subst.
        tauto.
      * right. exists s, c. tauto.
    + rewrite Hu, fold_check_field_used, <- app_assoc. f_equal. f_equal.
      unfold traced_names, columns_of. simpl. now rewrite E.
    + intros H. apply Hne. now apply fold_check_field_nonempty.
Qed.

Lemma check_parties_total (init_columns : dict (list string))
    (items : dict Schema) :
  (forall p s, In (p, s) items -> Dict.mem p init_columns = true) ->
  forall acc, exists res, check_parties init_columns items acc = Ok res.
Proof.
  induction items as [| [pyu schema] items IH]; intros Hmem acc; simpl.
  - now exists acc.
  - unfold getitem. pose proof (Hmem pyu schema (or_introl eq_refl)) as H.
    unfold Dict.mem in H. destruct (Dict.get pyu init_columns); [| discriminate].
    simpl. apply IH. intros p s Hin. apply (Hmem p s). now right.
Qed.

Lemma listed_nil (p x : string) : ~ listed [] p x.
Proof. intros [l [[] _]]. Qed.



(** What a normal return of the validation means. *)
Lemma check_columns_ok (init_columns : dict (list string))
    (trace_schemas : dict Schema) (used_columns : list string) :
  check_columns init_columns trace_schemas = Ok used_columns ->
  used_columns = flat_map (traced_names init_columns) trace_schemas
  /\ (forall p s, In (p, s) trace_schemas -> Dict.mem p init_columns = true)
  /\ (forall p x, ~ untraceable init_columns trace_schemas p x).
Proof.
  unfold check_columns.
  destruct (check_parties init_columns trace_schemas ([], [])) as [[inv used] |]
    eqn:E; simpl; [| discriminate].
  apply check_parties_spec in E. simpl in E. destruct E as [Hmem [Hl [Hu Hne]]].
  destruct inv as [| e inv]; simpl; [| discriminate].
  intros H. inversion H; subst. repeat split; try assumption.
  intros p x Hun. apply (listed_nil p x). apply Hl. now right.
Qed.



(** A party of the trace without initial columns stops the validation
    with a [KeyError], whatever the other parties hold. *)
Lemma check_columns_missing_party (init_columns : dict (list string))
    (trace_schemas : dict Schema) :
  (exists p s, In (p, s) trace_schemas /\ Dict.mem p init_columns = false) ->
  exists key, check_columns init_columns trace_schemas = Err (KeyError key).
Proof.
  intros [p [s [Hin Hmem]]]. unfold check_columns.
  assert (H : forall acc, exists key,
             check_parties init_columns trace_schemas acc = Err (KeyError key)).
  { induction trace_schemas as [| [q t] items IH]; [destruct Hin |].
    intros acc. simpl. unfold getitem.
    destruct (Dict.get q init_columns) as [cols |] eqn:E; simpl.
    - apply IH. destruct Hin as [Heq | Hin]; [| exact Hin].
      inversion Heq; subst. unfold Dict.mem in Hmem. rewrite E in Hmem.
      discriminate.
    - now exists q. }
  destruct (H ([], [])) as [key Hk]. exists key. now rewrite Hk.
Qed.

(** ** The first loop *)

Lemma collect_nodes_prefix (ns : list ServingNode) :
  forall collected,
    collect_nodes ns = Ok collected ->
    ns = collected ++ skipn (List.length collected) ns
    /\ (ns <> [] -> collected <> []).
Proof.
  induction ns as [| node rest IH]; intros collected; simpl.
  - intros H. inversion H; subst. split; [reflexivity | auto].
  - destruct (phase node); [| | discriminate].
    + destruct (collect_nodes rest) as [c |]; simpl; [| discriminate].
      intros H. inversion H; subst. simpl. split; [| discriminate].
      f_equal. now apply IH.
    + intros H. inversion H; subst. simpl. split; [reflexivity | discriminate].
Qed.

Lemma collect_nodes_error (ns : list ServingNode) (e : Error) :
  collect_nodes ns = Err e <->
  e = AssertInvalidPhase POSTPROCESSING
  /\ exists pre node rest,
       ns = pre ++ node :: rest
       /\ Forall (fun n => phase n = PREPROCESSING) pre
       /\ phase node = POSTPROCESSING.
Proof.
  revert e. induction ns as [| n ns IH]; intros e; simpl.
  - split; [discriminate |]. intros [_ [pre [node [rest [H _]]]]].
    destruct pre; discriminate.
  - destruct (phase n) eqn:Hn.
    + destruct (collect_nodes ns) as [c | e'] eqn:Hc; simpl.
      * split; [discriminate |].
        intros [He [pre [node [rest [Hns [Hpre Hnode]]]]]].
        destruct pre as [| n' pre]; simpl in Hns; inversion Hns; subst.
        -- congruence.
        -- inversion Hpre; subst. exfalso.
           assert (Hx : Ok c = Err (AssertInvalidPhase POSTPROCESSING));
             [| discriminate].
           apply IH. split; [reflexivity |]. now exists pre, node, rest.
      * destruct (IH e') as [Hfw _]. destruct (Hfw eq_refl)
          as [He' [pre [node [rest [Hns [Hpre Hnode]]]]]].
        split.
        -- intros H. inversion H; subst. split; [reflexivity |].
           exists (n :: pre), node, rest. repeat split; auto.
        -- intros [He _]. congruence.
    + split; [discriminate |].
      intros [He [pre [node [rest [Hns [Hpre Hnode]]]]]].
      destruct pre as [| n' pre]; simpl in Hns; inversion Hns; subst.
      * congruence.
      * inversion Hpre; subst. congruence.
    + split.
      * intros H. inversion H; subst. split; [reflexivity |].
        exists [], n, ns. repeat split; auto.
      * intros [He _]. now subst.
Qed.

Lemma pop_app (A : Type) (l : list A) (x : A) : pop (l ++ [x]) = Some (l, x).
Proof. unfold pop. rewrite rev_app_distr. simpl. now rewrite rev_involutive. Qed.

Lemma pop_nonempty (A : Type) (l : list A) :
  l <> [] -> exists u x, pop l = Some (u, x).
Proof.
  intros H. destruct (exists_last H) as [u [x ->]].
  exists u, x. apply pop_app.
Qed.

(** ** How [rebuild_preprocessing_nodes] runs *)

(** Once the first loop has collected a run, the call is the backward
    pass, then the validation; the builder holds the mutated run. *)
Lemma rebuild_run (builder : ServingBuilder) (init_schemas : dict Schema)
    (collected upstream : list ServingNode) (last_node : ServingNode) :
  collect_nodes (nodes builder) = Ok collected ->
  pop collected = Some (upstream, last_node) ->
  rebuild_preprocessing_nodes builder init_schemas =
  (mkServingBuilder (pyus builder)
     (fst (backward_pass (pyus builder) upstream (input_schemas last_node))
        ++ last_node :: skipn (List.length collected) (nodes builder)),
   bind (snd (backward_pass (pyus builder) upstream (input_schemas last_node)))
     (check_columns (init_columns_of init_schemas))).
Proof.
  intros Hc Hp. unfold rebuild_preprocessing_nodes.
  destruct (nodes builder) as [| first rest] eqn:Hn.
  - simpl in Hc. inversion Hc; subst. discriminate.
  - destruct (phase first) eqn:Hph.
    + rewrite Hc, Hp.
      destruct (backward_pass (pyus builder) upstream (input_schemas last_node)).
      reflexivity.
    + rewrite Hc, Hp.
      destruct (backward_pass (pyus builder) upstream (input_schemas last_node)).
      reflexivity.
    + simpl in Hc. rewrite Hph in Hc. discriminate.
Qed.

(** A pipeline that starts in the PREPROCESSING or TRAIN_PREDICT phase
    either fails the phase assertion or has a run with a last node. *)
Lemma rebuild_cases (builder : ServingBuilder) (init_schemas : dict Schema)
    (first : ServingNode) (rest : list ServingNode) :
  nodes builder = first :: rest ->
  phase first <> POSTPROCESSING ->
  (exists e,
     collect_nodes (nodes builder) = Err e
     /\ rebuild_preprocessing_nodes builder init_schemas = (builder, Err e))
  \/ (exists collected upstream last_node,
        collect_nodes (nodes builder) = Ok collected
        /\ pop collected = Some (upstream, last_node)).
Proof.
  intros Hn Hph. destruct (collect_nodes (nodes builder)) as [c | e] eqn:Hc.
  - right. destruct (collect_nodes_prefix _ _ Hc) as [_ Hne].
    destruct (pop_nonempty _ c) as [u [x Hp]].
    + apply Hne. rewrite Hn. discriminate.
    + now exists c, u, x.
  - left. exists e. split; [reflexivity |].
    unfold rebuild_preprocessing_nodes. rewrite Hn in *.
    destruct (phase first); try congruence; now rewrite Hc.
Qed.

(** ** The backward pass *)

(** Every successful pass of the loop body ends in [node.add] with a
    payload built from the schemas it installs. *)
Lemma rebuild_party_add (node node' : ServingNode)
    (trace_schemas trace_schemas' : dict Schema) (pyu : PYU) :
  rebuild_party node trace_schemas pyu = Ok (node', trace_schemas') ->
  exists in_schema out_schema dag,
    node' = add node pyu in_schema out_schema
              (build_arrow_processing_kwargs in_schema out_schema dag).
Proof.
  unfold rebuild_party.
  destruct (Dict.mem pyu (input_schemas node)); simpl.
  - unfold getitem.
    destruct (Dict.get pyu (input_schemas node)); simpl; [| discriminate].
    destruct (Dict.get pyu (output_schemas node)); simpl; [| discriminate].
    destruct (rebuild_schema _ _ _) as [[t' i] o].
    destruct (Dict.get pyu (kwargs node)) as [kw |]; simpl; [| discriminate].
    destruct (trace_content kw) as [dag |]; [| discriminate].
    intros H. inversion H; subst. now exists i, o, dag.
  - destruct (Dict.mem pyu (output_schemas node)); [discriminate |].
    destruct (Dict.mem pyu (kwargs node)); [discriminate |].
    intros H. inversion H; subst. now eexists _, _, _.
Qed.

Lemma add_installed (node : ServingNode) (pyu : PYU)
    (in_schema out_schema : Schema) (dag : Dag) :
  let node' := add node pyu in_schema out_schema
                 (build_arrow_processing_kwargs in_schema out_schema dag) in
  fragment_installed node' pyu
  /\ (forall q, fragment_installed node q -> fragment_installed node' q)
  /\ node_name node' = node_name node
  /\ phase node' = phase node.
Proof.
  simpl. split; [| split; [| split; reflexivity]].
  - exists in_schema, out_schema, dag. simpl. now rewrite !get_set_same.
  - intros q [i [o [d [Hi [Ho Hk]]]]]. destruct (string_dec pyu q) as [-> | Hne].
    + exists in_schema, out_schema, dag. simpl. now rewrite !get_set_same.
    + exists i, o, d. simpl. now rewrite !get_set_other by assumption.
Qed.

Lemma rebuild_node_installed (ps : list PYU) :
  forall node trace_schemas node' trace_schemas',
    rebuild_node ps node trace_schemas = (node', Ok trace_schemas') ->
    (forall p, In p ps -> fragment_installed node' p)
    /\ (forall q, fragment_installed node q -> fragment_installed node' q)
    /\ node_name node' = node_name node
    /\ phase node' = phase node.
Proof.
  induction ps as [| pyu ps IH]; intros node t node' t'; simpl.
  - intros H. inversion H; subst. repeat split; auto. intros p [].
  - destruct (rebuild_party node t pyu) as [[n1 t1] | e] eqn:E; [| discriminate].
    intros H. apply IH in H. destruct H as [Hps [Hkeep [Hname Hphase]]].
    apply rebuild_party_add in E. destruct E as [i [o [dag ->]]].
    destruct (add_installed node pyu i o dag) as [Hnew [Hold [Hn Hp]]].
    repeat split.
    + intros p [<- | Hin]; [now apply Hkeep | now apply Hps].
    + intros q Hq. apply Hkeep. now apply Hold.
    + now rewrite Hname.
    + now rewrite Hphase.
Qed.

Lemma rebuild_nodes_installed (ps : list PYU) :
  forall rnodes trace_schemas rnodes' trace_schemas',
    rebuild_nodes ps rnodes trace_schemas = (rnodes', Ok trace_schemas') ->
    Forall2 (fun n n' =>
               node_name n' = node_name n
               /\ phase n' = phase n
               /\ forall p, In p ps -> fragment_installed n' p)
      rnodes rnodes'.
Proof.
  induction rnodes as [| node rest IH]; intros t rn' t'; simpl.
  - intros H. inversion H; subst. constructor.
  - destruct (rebuild_node ps node t) as [n1 [t1 | e]] eqn:E; [| discriminate].
    destruct (rebuild_nodes ps rest t1) as [rest' r] eqn:Er.
    intros H. inversion H; subst.
    apply rebuild_node_installed in E. destruct E as [Hps [_ [Hn Hp]]].
    constructor; [auto |]. now apply (IH t1 rest' t').
Qed.

Lemma Forall2_rev (A B : Type) (R : A -> B -> Prop) (l : list A) (l' : list B) :
  Forall2 R l l' -> Forall2 R (rev l) (rev l').
Proof.
  induction 1 as [| x y l l' Hxy _ IH]; simpl; [constructor |].
  apply Forall2_app; [exact IH | now constructor].
Qed.

(** A completed backward pass leaves, in every node it visited and for
    every party of the builder, a fragment installed by [node.add]. *)
Lemma backward_pass_installed (ps : list PYU) (ns ns' : list ServingNode)
    (trace_schemas trace_schemas' : dict Schema) :
  backward_pass ps ns trace_schemas = (ns', Ok trace_schemas') ->
  Forall2 (fun n n' =>
             node_name n' = node_name n
             /\ phase n' = phase n
             /\ forall p, In p ps -> fragment_installed n' p)
    ns ns'.
Proof.
  unfold backward_pass.
  destruct (rebuild_nodes ps (rev ns) trace_schemas) as [rn' r] eqn:E.
  intros H. inversion H; subst.
  apply rebuild_nodes_installed in E. apply Forall2_rev in E.
  now rewrite rev_involutive in E.
Qed.

(** The backward pass raises neither the phase assertion nor the
    invalid-columns error. *)
Lemma rebuild_party_error (node : ServingNode) (trace_schemas : dict Schema)
    (pyu : PYU) (e : Error) :
  rebuild_party node trace_schemas pyu = Err e ->
  ~ is_phase_error e /\ ~ is_value_error e.
Proof.
  unfold rebuild_party.
  destruct (Dict.mem pyu (input_schemas node)); simpl.
  - unfold getitem.
    destruct (Dict.get pyu (input_schemas node)); simpl;
      [| intros H; inversion H; subst; simpl; tauto].
    destruct (Dict.get pyu (output_schemas node)); simpl;
      [| intros H; inversion H; subst; simpl; tauto].
    destruct (rebuild_schema _ _ _) as [[t' i] o].
    destruct (Dict.get pyu (kwargs node)) as [kw |]; simpl;
      [| intros H; inversion H; subst; simpl; tauto].
    destruct (trace_content kw) as [dag |]; [discriminate |].
    intros H; inversion H; subst; simpl; tauto.
  - destruct (Dict.mem pyu (output_schemas node));
      [intros H; inversion H; subst; simpl; tauto |].
    destruct (Dict.mem pyu (kwargs node));
      [intros H; inversion H; subst; simpl; tauto | discriminate].
Qed.

Lemma rebuild_node_error (ps : list PYU) :
  forall node trace_schemas node' e,
    rebuild_node ps node trace_schemas = (node', Err e) ->
    ~ is_phase_error e /\ ~ is_value_error e.
Proof.
  induction ps as [| pyu ps IH]; intros node t node' e; simpl; [discriminate |].
  destruct (rebuild_party node t pyu) as [[n1 t1] | e1] eqn:E.
  - apply IH.
  - intros H. inversion H; subst. now apply rebuild_party_error in E.
Qed.

Lemma rebuild_nodes_error (ps : list PYU) :
  forall rnodes trace_schemas rnodes' e,
    rebuild_nodes ps rnodes trace_schemas = (rnodes', Err e) ->
    ~ is_phase_error e /\ ~ is_value_error e.
Proof.
  induction rnodes as [| node rest IH]; intros t rn' e; simpl; [discriminate |].
  destruct (rebuild_node ps node t) as [n1 [t1 | e1]] eqn:E.
  - destruct (rebuild_nodes ps rest t1) as [rest' r] eqn:Er.
    intros H. inversion H; subst. now apply (IH t1 rest').
  - intros H. inversion H; subst. now apply rebuild_node_error in E.
Qed.

Lemma backward_pass_error (ps : list PYU) (ns ns' : list ServingNode)
    (trace_schemas : dict Schema) (e : Error) :
  backward_pass ps ns trace_schemas = (ns', Err e) ->
  ~ is_phase_error e /\ ~ is_value_error e.
Proof.
  unfold backward_pass.
  destruct (rebuild_nodes ps (rev ns) trace_schemas) as [rn' r] eqn:E.
  intros H. inversion H; subst. now apply rebuild_nodes_error in E.
Qed.

Lemma check_columns_error (init_columns : dict (list string))
    (trace_schemas : dict Schema) (e : Error) :
  check_columns init_columns trace_schemas = Err e -> ~ is_phase_error e.
Proof.
  unfold check_columns.
  destruct (check_parties init_columns trace_schemas ([], [])) as [[inv used] | e1]
    eqn:E; simpl.
  - destruct (Nat.ltb 0 (List.length inv)); [| discriminate].
    intros H. inversion H; subst. simpl. tauto.
  - intros H. inversion H; subst. clear H.
    revert E. generalize (@nil (string * list string), @nil string).
    induction trace_schemas as [| [q s] items IH]; intros acc; simpl;
      [discriminate |].
    unfold getitem. destruct (Dict.get q init_columns); simpl; [apply IH |].
    intros H. inversion H; subst. simpl. tauto.
Qed.

Lemma backward_pass_nil (ps : list PYU) (trace_schemas : dict Schema) :
  backward_pass ps [] trace_schemas = ([], Ok trace_schemas).
Proof. reflexivity. Qed.

(** ** More on dictionaries and names *)

Lemma mem_set (V : Type) (k p : string) (v : V) (d : dict V) :
  Dict.mem p (Dict.set k v d) = String.eqb k p || Dict.mem p d.
Proof.
  unfold Dict.mem. destruct (string_dec k p) as [-> | Hne].
  - now rewrite get_set_same, String.eqb_refl.
  - rewrite get_set_other by assumption.
    apply String.eqb_neq in Hne. now rewrite Hne.
Qed.

Lemma init_columns_mem_fold (init_schemas : dict Schema) (p : string) :
  forall acc : dict (list string),
    Dict.mem p
      (fold_left (fun d ps => Dict.set (fst ps) (names (snd ps)) d)
         init_schemas acc)
    = Dict.mem p acc || Dict.mem p init_schemas.
Proof.
  induction init_schemas as [| [q s] rest IH]; intros acc; simpl.
  - now rewrite orb_false_r.
  - rewrite IH, mem_set. unfold Dict.mem at 4. simpl.
    rewrite (String.eqb_sym p q).
    destruct (String.eqb q p); simpl.
    + now rewrite orb_true_r.
    + reflexivity.
Qed.

(** A party has initial columns exactly when it has an initial schema. *)
Lemma init_columns_mem (init_schemas : dict Schema) (p : string) :
  Dict.mem p (init_columns_of init_schemas) = Dict.mem p init_schemas.
Proof. unfold init_columns_of. now rewrite init_columns_mem_fold. Qed.

Lemma flat_map_ext_in (A B : Type) (f g : A -> list B) (l : list A) :
  (forall a, In a l -> f a = g a) -> flat_map f l = flat_map g l.
Proof.
  induction l as [| a l IH]; simpl; intros H; [reflexivity |].
  rewrite (H a (or_introl eq_refl)). f_equal. apply IH.
  intros b Hb. apply H. now right.
Qed.

(** When nothing is untraceable the used columns are all the names of the
    trace schemas, party after party. *)
Lemma traced_names_all (init_columns : dict (list string))
    (trace_schemas : dict Schema) :
  (forall p s, In (p, s) trace_schemas -> Dict.mem p init_columns = true) ->
  (forall p x, ~ untraceable init_columns trace_schemas p x) ->
  flat_map (traced_names init_columns) trace_schemas
  = flat_map (fun ps => names (snd ps)) trace_schemas.
Proof.
  intros Hmem Hnone. apply flat_map_ext_in. intros [p s] Hin.
  unfold traced_names, columns_of. simpl. apply filter_all. intros x Hx.
  pose proof (Hmem p s Hin) as Hp. unfold Dict.mem in Hp.
  destruct (Dict.get p init_columns) as [cols |] eqn:E; [| discriminate].
  destruct (name_in x cols) eqn:Hc; [reflexivity |].
  exfalso. apply (Hnone p x). exists s, cols. repeat split; try assumption.
  now apply name_in_not_In.
Qed.

(** ** Properties of [rebuild_preprocessing_nodes] *)

(** C1. For a pipeline whose first node is PREPROCESSING or TRAIN_PREDICT,
    a normal return gives exactly the names of the final trace schemas,
    party after party, and each of them is a column of the initial table
    schema of the party whose trace schema contributed it. *)
Theorem used_columns_in_init_schemas
    (builder builder' : ServingBuilder) (init_schemas : dict Schema)
    (first : ServingNode) (rest : list ServingNode)
    (used_columns : list string) :
  nodes builder = first :: rest ->
  phase first = PREPROCESSING \/ phase first = TRAIN_PREDICT ->
  rebuild_preprocessing_nodes builder init_schemas
    = (builder', Ok used_columns) ->
  exists collected upstream last_node upstream' trace_schemas,
    collect_nodes (nodes builder) = Ok collected
    /\ pop collected = Some (upstream, last_node)
    /\ backward_pass (pyus builder) upstream (input_schemas last_node)
       = (upstream', Ok trace_schemas)
    /\ used_columns = flat_map (fun ps => names (snd ps)) trace_schemas
    /\ forall p s x,
         In (p, s) trace_schemas -> In x (names s) ->
         exists s0, In (p, s0) init_schemas /\ In x (names s0).
Proof.
  intros Hn Hph Hrun.
  assert (Hpost : phase first <> POSTPROCESSING)
    by (destruct Hph as [H | H]; rewrite H; discriminate).
  destruct (rebuild_cases builder init_schemas first rest Hn Hpost)
    as [[e [_ He]] | [c [u [l [Hc Hp]]]]]; [congruence |].
  rewrite (rebuild_run _ init_schemas _ _ _ Hc Hp) in Hrun.
  destruct (backward_pass (pyus builder) u (input_schemas l)) as [u' r] eqn:Hb.
  simpl in Hrun. destruct r as [t | e]; simpl in Hrun; [| discriminate].
  inversion Hrun as [[Hb' Hu]]. apply check_columns_ok in Hu.
  destruct Hu as [Hused [Hmem Hnone]].
  exists c, u, l, u', t. repeat split; try assumption.
  - rewrite Hused. now apply traced_names_all.
  - intros p s x Hin Hx. pose proof (Hmem p s Hin) as Hm.
    unfold Dict.mem in Hm.
    destruct (Dict.get p (init_columns_of init_schemas)) as [cols |] eqn:E;
      [| discriminate].
    destruct (init_columns_of_In _ _ _ E) as [s0 [Hs0 Hcols]].
    exists s0. split; [assumption |]. subst cols.
    destruct (name_in x (names s0)) eqn:Hx0; [now apply name_in_In |].
    exfalso. apply (Hnone p x). exists s, (names s0).
    repeat split; try assumption. now apply name_in_not_In.
Qed.

Lemma used_columns_in_init_schemas_witness :
  exists collected upstream last_node upstream' trace_schemas,
    collect_nodes (nodes alice_builder) = Ok collected
    /\ pop collected = Some (upstream, last_node)
    /\ backward_pass (pyus alice_builder) upstream (input_schemas last_node)
       = (upstream', Ok trace_schemas)
    /\ ["age"; "income"] = flat_map (fun ps => names (snd ps)) trace_schemas
    /\ forall p s x,
         In (p, s) trace_schemas -> In x (names s) ->
         exists s0, In (p, s0) alice_init /\ In x (names s0).
Proof.
  apply (used_columns_in_init_schemas alice_builder
           (fst (rebuild_preprocessing_nodes alice_builder alice_init))
           alice_init bucket_node [model_node]).
  - reflexivity.
  - left. reflexivity.
  - reflexivity.
Defined.

(** C2, as the code has it.  When the first node is TRAIN_PREDICT the call
    leaves the builder as it was and goes straight to the validation of
    that node's input schemas: a normal return lists all their field
    names, which is the empty list only when they have no field. *)
Theorem train_predict_first_leaves_nodes
    (builder : ServingBuilder) (init_schemas : dict Schema)
    (first : ServingNode) (rest : list ServingNode) :
  nodes builder = first :: rest ->
  phase first = TRAIN_PREDICT ->
  rebuild_preprocessing_nodes builder init_schemas
    = (builder,
       check_columns (init_columns_of init_schemas) (input_schemas first))
  /\ forall used_columns,
       snd (rebuild_preprocessing_nodes builder init_schemas) = Ok used_columns ->
       used_columns = flat_map (fun ps => names (snd ps)) (input_schemas first).
Proof.
  intros Hn Hph.
  assert (Hc : collect_nodes (nodes builder) = Ok [first])
    by (rewrite Hn; simpl; now rewrite Hph).
  assert (Hp : pop [first] = Some ([], first)) by reflexivity.
  assert (Hrun : rebuild_preprocessing_nodes builder init_schemas
                 = (builder,
                    check_columns (init_columns_of init_schemas)
                      (input_schemas first))).
  { rewrite (rebuild_run _ init_schemas _ _ _ Hc Hp), backward_pass_nil.
    simpl. rewrite Hn. simpl. destruct builder as [ps ns]. simpl in *.
    now subst ns. }
  split; [exact Hrun |].
  intros used Hused. rewrite Hrun in Hused. simpl in Hused.
  apply check_columns_ok in Hused. destruct Hused as [-> [Hmem Hnone]].
  now apply traced_names_all.
Qed.

Lemma train_predict_first_leaves_nodes_witness :
  rebuild_preprocessing_nodes model_only_builder alice_init
    = (model_only_builder,
       check_columns (init_columns_of alice_init)
         (input_schemas plain_model_node))
  /\ forall used_columns,
       snd (rebuild_preprocessing_nodes model_only_builder alice_init)
         = Ok used_columns ->
       used_columns
         = flat_map (fun ps => names (snd ps)) (input_schemas plain_model_node).
Proof.
  apply (train_predict_first_leaves_nodes model_only_builder alice_init
           plain_model_node []); reflexivity.
Defined.

(** C2 as stated fails: a pipeline made of one TRAIN_PREDICT node, with no
    node upstream, returns the model's input columns, not the empty
    list. *)
Lemma train_predict_first_used_columns_counterexample :
  nodes model_only_builder = [plain_model_node]
  /\ phase plain_model_node = TRAIN_PREDICT
  /\ rebuild_preprocessing_nodes model_only_builder alice_init
     = (model_only_builder, Ok ["age"; "income"])
  /\ ~ (forall builder init_schemas first,
          nodes builder = [first] ->
          phase first = TRAIN_PREDICT ->
          rebuild_preprocessing_nodes builder init_schemas = (builder, Ok [])).
Proof.
  repeat split. intros H.
  specialize (H model_only_builder alice_init plain_model_node eq_refl eq_refl).
  discriminate.
Qed.

(** C3, as the code has it.  The phase assertion fails exactly when the
    pipeline starts with one or more PREPROCESSING nodes followed by a
    POSTPROCESSING node, that is when a node of another phase is met before
    the first TRAIN_PREDICT node; the pipeline is then left untouched.  The
    first loop stops at the first TRAIN_PREDICT node, so whatever follows
    it, a PREPROCESSING node included, fails no phase assertion. *)
Theorem phase_assertion_before_train_predict
    (builder : ServingBuilder) (init_schemas : dict Schema) :
  let malformed :=
    exists pre node rest,
      nodes builder = pre ++ node :: rest
      /\ pre <> []
      /\ Forall (fun n => phase n = PREPROCESSING) pre
      /\ phase node = POSTPROCESSING in
  ((exists e,
      is_phase_error e
      /\ snd (rebuild_preprocessing_nodes builder init_schemas) = Err e)
   <-> malformed)
  /\ (malformed ->
      rebuild_preprocessing_nodes builder init_schemas
        = (builder, Err (AssertInvalidPhase POSTPROCESSING)))
  /\ (forall pre node rest,
        nodes builder = pre ++ node :: rest ->
        Forall (fun n => phase n = PREPROCESSING) pre ->
        phase node = TRAIN_PREDICT ->
        forall e,
          snd (rebuild_preprocessing_nodes builder init_schemas) = Err e ->
          ~ is_phase_error e).
Proof.
  intros malformed.
  assert (Hbw : malformed ->
                rebuild_preprocessing_nodes builder init_schemas
                = (builder, Err (AssertInvalidPhase POSTPROCESSING))).
  { intros [pre [node [rest [Hn [Hne [Hpre Hnode]]]]]].
    destruct pre as [| first pre]; [contradiction |].
    inversion Hpre as [| x l Hfirst Hpre']; subst.
    assert (Hc : collect_nodes (nodes builder)
                 = Err (AssertInvalidPhase POSTPROCESSING)).
    { apply collect_nodes_error. split; [reflexivity |].
      exists (first :: pre), node, rest. repeat split; assumption. }
    destruct (rebuild_cases builder init_schemas first
                (pre ++ node :: rest) Hn) as [[e [He Hr]] | [c [u [l [Hc' _]]]]].
    - rewrite Hfirst. discriminate.
    - congruence.
    - congruence. }
  assert (Hfw : forall e,
             is_phase_error e ->
             snd (rebuild_preprocessing_nodes builder init_schemas) = Err e ->
             collect_nodes (nodes builder) = Err e
             /\ exists first rest,
                  nodes builder = first :: rest
                  /\ phase first <> POSTPROCESSING).
  { intros e Hpe Hr. unfold rebuild_preprocessing_nodes in Hr.
    destruct (nodes builder) as [| first rest] eqn:Hn.
    - simpl in Hr. inversion Hr; subst. destruct Hpe.
    - assert (Hr' : phase first <> POSTPROCESSING ->
                    collect_nodes (first :: rest) = Err e).
      { intros Hph.
        destruct (rebuild_cases builder init_schemas first rest Hn Hph)
          as [[e' [He' Hr']] | [c [u [l [Hc Hp]]]]].
        - assert (Hs : snd (rebuild_preprocessing_nodes builder init_schemas)
                       = Err e).
          { unfold rebuild_preprocessing_nodes. rewrite Hn. exact Hr. }
          rewrite Hr' in Hs. simpl in Hs. rewrite Hn in He'. congruence.
        - exfalso.
          assert (Hs : snd (rebuild_preprocessing_nodes builder init_schemas)
                       = Err e).
          { unfold rebuild_preprocessing_nodes. rewrite Hn. exact Hr. }
          rewrite (rebuild_run _ init_schemas _ _ _ Hc Hp) in Hs. simpl in Hs.
          destruct (backward_pass (pyus builder) u (input_schemas l))
            as [u' [t | e']] eqn:Hb; simpl in Hs.
          + now apply check_columns_error in Hs.
          + inversion Hs; subst. apply backward_pass_error in Hb. tauto. }
      destruct (phase first) eqn:Hph.
      + split; [apply Hr'; discriminate |].
        exists first, rest. split; [reflexivity | rewrite Hph; discriminate].
      + split; [apply Hr'; discriminate |].
        exists first, rest. split; [reflexivity | rewrite Hph; discriminate].
      + simpl in Hr. discriminate. }
  split; [split |]; [| | split].
  - intros [e [Hpe Hr]]. destruct (Hfw e Hpe Hr) as [Hc [first [rest [Hn Hph]]]].
    apply collect_nodes_error in Hc.
    destruct Hc as [_ [pre [node [rest' [Hns [Hpre Hnode]]]]]].
    exists pre, node, rest'. repeat split; try assumption.
    intros ->. simpl in Hns. rewrite Hn in Hns. inversion Hns; subst.
    contradiction.
  - intros Hm. exists (AssertInvalidPhase POSTPROCESSING).
    split; [exact I |]. now rewrite (Hbw Hm).
  - exact Hbw.
  - intros pre node rest Hn Hpre Hnode e Hr Hpe.
    destruct (Hfw e Hpe Hr) as [Hc _]. apply collect_nodes_error in Hc.
    destruct Hc as [_ [pre' [node' [rest' [Hns [Hpre' Hnode']]]]]].
    rewrite Hn in Hns. clear - Hns Hpre Hnode Hpre' Hnode'.
    revert pre' Hns Hpre'. induction Hpre as [| x l Hx _ IH]; intros pre' Hns Hpre'.
    + destruct pre' as [| y pre']; simpl in Hns; inversion Hns; subst.
      * congruence.
      * inversion Hpre'; subst. congruence.
    + destruct pre' as [| y pre']; simpl in Hns; inversion Hns; subst.
      * congruence.
      * inversion Hpre'; subst. now apply (IH pre').
Qed.

(** C3 as stated fails: a PREPROCESSING node placed after the
    TRAIN_PREDICT node is never visited, and the call returns normally. *)
Lemma preprocessing_after_train_predict_counterexample :
  nodes late_preprocessing_builder = [plain_model_node; bucket_node]
  /\ phase plain_model_node = TRAIN_PREDICT
  /\ phase bucket_node = PREPROCESSING
  /\ rebuild_preprocessing_nodes late_preprocessing_builder alice_init
     = (late_preprocessing_builder, Ok ["age"; "income"]).
Proof. repeat split. Qed.

(** The assertion does fire on a POSTPROCESSING node met before the
    model. *)
Example early_postprocessing_rejected :
  rebuild_preprocessing_nodes early_postprocessing_builder alice_init
  = (early_postprocessing_builder, Err (AssertInvalidPhase POSTPROCESSING)).
Proof. reflexivity. Qed.



(** Two parties with one untraceable column each: the error names both
    parties and both columns. *)
Example two_party_error :
  snd (rebuild_preprocessing_nodes two_party_builder two_party_init)
  = Err (ValueError [("alice", ["u"]); ("bob", ["v"])]).
Proof. reflexivity. Qed.




(** C10. When the call raises the invalid-columns error the backward pass
    has run to its end: the builder it leaves holds, in place of the nodes
    upstream of the last node of the run, the nodes as the pass rewrote
    them, each with a fragment installed by [node.add] for every party of
    the builder. *)
Theorem invalid_columns_error_after_rewrite
    (builder builder' : ServingBuilder) (init_schemas : dict Schema)
    (invalid_columns : dict (list string)) :
  rebuild_preprocessing_nodes builder init_schemas
    = (builder', Err (ValueError invalid_columns)) ->
  exists collected upstream last_node upstream' trace_schemas,
    collect_nodes (nodes builder) = Ok collected
    /\ pop collected = Some (upstream, last_node)
    /\ backward_pass (pyus builder) upstream (input_schemas last_node)
       = (upstream', Ok trace_schemas)
    /\ check_columns (init_columns_of init_schemas) trace_schemas
       = Err (ValueError invalid_columns)
    /\ nodes builder'
       = upstream' ++ last_node
           :: skipn (List.length collected) (nodes builder)
    /\ Forall2 (fun n n' =>
                  node_name n' = node_name n
                  /\ phase n' = phase n
                  /\ forall p, In p (pyus builder) -> fragment_installed n' p)
         upstream upstream'.
Proof.
  intros Hrun.
  destruct (nodes builder) as [| first rest] eqn:Hn.
  - unfold rebuild_preprocessing_nodes in Hrun. rewrite Hn in Hrun.
    discriminate.
  - destruct (phase first) eqn:Hph.
    3: { unfold rebuild_preprocessing_nodes in Hrun. rewrite Hn, Hph in Hrun.
         discriminate. }
    all: assert (Hpost : phase first <> POSTPROCESSING)
           by (rewrite Hph; discriminate);
         destruct (rebuild_cases builder init_schemas first rest Hn Hpost)
           as [[e [He Hr]] | [c [u [l [Hc Hp]]]]];
         [ rewrite Hr in Hrun; inversion Hrun; subst;
           apply collect_nodes_error in He;
           destruct He as [He _]; discriminate
         | rewrite (rebuild_run _ init_schemas _ _ _ Hc Hp) in Hrun;
           destruct (backward_pass (pyus builder) u (input_schemas l))
             as [u' [t | e]] eqn:Hb; simpl in Hrun;
           [ inversion Hrun as [[Hb' Hv]]; exists c, u, l, u', t;
             rewrite <- Hn; repeat split; try assumption;
             now apply backward_pass_installed in Hb
           | inversion Hrun; subst; apply backward_pass_error in Hb;
             simpl in Hb; tauto ] ].
Qed.

Lemma invalid_columns_error_after_rewrite_witness :
  exists collected upstream last_node upstream' trace_schemas,
    collect_nodes (nodes two_party_builder) = Ok collected
    /\ pop collected = Some (upstream, last_node)
    /\ backward_pass (pyus two_party_builder) upstream
         (input_schemas last_node)
       = (upstream', Ok trace_schemas)
    /\ check_columns (init_columns_of two_party_init) trace_schemas
       = Err (ValueError [("alice", ["u"]); ("bob", ["v"])])
    /\ nodes (fst (rebuild_preprocessing_nodes two_party_builder two_party_init))
       = upstream' ++ last_node
           :: skipn (List.length collected) (nodes two_party_builder)
    /\ Forall2 (fun n n' =>
                  node_name n' = node_name n
                  /\ phase n' = phase n
                  /\ forall p,
                       In p (pyus two_party_builder) -> fragment_installed n' p)
         upstream upstream'.
Proof.
  apply (invalid_columns_error_after_rewrite two_party_builder
           (fst (rebuild_preprocessing_nodes two_party_builder two_party_init))
           two_party_init).
  reflexivity.
Defined.

(** The error is raised on a builder that is no longer the one the call
    received. *)
Example two_party_error_not_atomic :
  snd (rebuild_preprocessing_nodes two_party_builder two_party_init)
    = Err (ValueError [("alice", ["u"]); ("bob", ["v"])])
  /\ fst (rebuild_preprocessing_nodes two_party_builder two_party_init)
     <> two_party_builder.
Proof. split; [reflexivity | discriminate]. Qed.

(** ** Name uniqueness along the backward pass *)

Lemma unique_names_set (k : string) (v : Schema) (d : dict Schema) :
  NoDup (names v) -> unique_names d -> unique_names (Dict.set k v d).
Proof.
  intros Hv Hd p s Hin. apply In_set in Hin.
  destruct Hin as [[_ ->] | Hin]; [assumption | now apply (Hd p)].
Qed.

(** The loop body keeps the node's schemas and the trace schemas free of
    repeated names: the consequence of C9 for the rewritten nodes. *)
Lemma rebuild_party_names_unique (node node' : ServingNode)
    (trace_schemas trace_schemas' : dict Schema) (pyu : PYU) :
  unique_names trace_schemas ->
  unique_names (input_schemas node) ->
  unique_names (output_schemas node) ->
  rebuild_party node trace_schemas pyu = Ok (node', trace_schemas') ->
  unique_names trace_schemas'
  /\ unique_names (input_schemas node')
  /\ unique_names (output_schemas node').
Proof.
  intros Ht Hi Ho. unfold rebuild_party.
  assert (Hts : NoDup (names match Dict.get pyu trace_schemas with
                              | Some s => s
                              | None => []
                              end)).
  { destruct (Dict.get pyu trace_schemas) as [s |] eqn:E.
    - apply (Ht pyu). now apply get_In.
    - constructor. }
  destruct (Dict.mem pyu (input_schemas node)); simpl.
  - unfold getitem.
    destruct (Dict.get pyu (input_schemas node)) as [node_in |] eqn:Ei;
      simpl; [| discriminate].
    destruct (Dict.get pyu (output_schemas node)) as [node_out |] eqn:Eo;
      simpl; [| discriminate].
    apply get_In in Ei. apply get_In in Eo.
    apply Hi in Ei. apply Ho in Eo.
    pose proof (new_trace_NoDup _ _ node_out Hts Ei) as H1.
    pose proof (new_in_NoDup _ _ node_out Hts Ei) as H2.
    pose proof (new_out_NoDup _ node_in _ Hts Eo) as H3.
    destruct (rebuild_schema _ node_in node_out) as [[t' i] o].
    unfold new_trace, new_in, new_out in *. simpl in *.
    destruct (Dict.get pyu (kwargs node)) as [kw |]; simpl; [| discriminate].
    destruct (trace_content kw) as [dag |]; [| discriminate].
    intros H. inversion H; subst. simpl.
    repeat split; now apply unique_names_set.
  - destruct (Dict.mem pyu (output_schemas node)); [discriminate |].
    destruct (Dict.mem pyu (kwargs node)); [discriminate |].
    intros H. inversion H; subst. simpl.
    repeat split; try assumption; now apply unique_names_set.
Qed.

Lemma rebuild_node_names_unique (ps : list PYU) :
  forall node trace_schemas node' trace_schemas',
    unique_names trace_schemas ->
    unique_names (input_schemas node) ->
    unique_names (output_schemas node) ->
    rebuild_node ps node trace_schemas = (node', Ok trace_schemas') ->
    unique_names trace_schemas'
    /\ unique_names (input_schemas node')
    /\ unique_names (output_schemas node').
Proof.
  induction ps as [| pyu ps IH]; intros node t node' t' Ht Hi Ho; simpl.
  - intros H. inversion H; subst. auto.
  - destruct (rebuild_party node t pyu) as [[n1 t1] |] eqn:E; [| discriminate].
    apply (rebuild_party_names_unique _ _ _ _ _ Ht Hi Ho) in E.
    destruct E as [Ht1 [Hi1 Ho1]]. now apply IH.
Qed.

(** * Further properties of the schema repair *)

Lemma is_input_In (in_schema : Schema) (f : Field) :
  is_input in_schema f = true <-> In (name f) (names in_schema).
Proof. unfold is_input. apply name_in_In. Qed.

Lemma is_input_not_In (in_schema : Schema) (f : Field) :
  is_input in_schema f = false <-> ~ In (name f) (names in_schema).
Proof. unfold is_input. apply name_in_not_In. Qed.

Lemma in_names_iff (x : string) (s : Schema) :
  In x (names s) <-> exists f, In f s /\ name f = x.
Proof.
  unfold names. rewrite in_map_iff. split; intros [f [H1 H2]]; exists f; tauto.
Qed.

(** X1. [rebuild_schema] never removes or reorders a declared field: the
    new input (output) schema is the old one followed by trace fields.  A
    trace field is appended to the input schema exactly when neither
    schema names it, and to the output schema exactly when the output
    schema does not name it. *)
Theorem rebuild_schema_extends_declared
    (trace_schema in_schema out_schema : Schema) :
  let r := rebuild_schema trace_schema in_schema out_schema in
  exists extra_in extra_out,
    new_in r = in_schema ++ extra_in
    /\ new_out r = out_schema ++ extra_out
    /\ (forall f,
          In f extra_in <->
          In f trace_schema
          /\ is_input in_schema f = false
          /\ is_output out_schema f = false)
    /\ (forall f,
          In f extra_out <->
          In f trace_schema /\ is_output out_schema f = false).
Proof.
  intros r. subst r. rewrite rebuild_schema_eq. unfold new_in, new_out. simpl.
  eexists. eexists. split; [reflexivity |]. split; [reflexivity |]. split.
  - intros f. rewrite filter_In. unfold is_added.
    destruct (is_input in_schema f), (is_output out_schema f); simpl;
      intuition discriminate.
  - intros f. rewrite filter_In. unfold is_added.
    destruct (is_input in_schema f), (is_output out_schema f); simpl;
      intuition discriminate.
Qed.

(** The names of the three schemas [rebuild_schema] returns. *)

Lemma new_trace_names (trace_schema in_schema out_schema : Schema) (x : string) :
  In x (names (new_trace (rebuild_schema trace_schema in_schema out_schema)))
  <-> In x (names in_schema)
      \/ (In x (names trace_schema) /\ ~ In x (names out_schema)).
Proof.
  rewrite rebuild_schema_eq. unfold new_trace. simpl.
  rewrite names_app, in_app_iff. split.
  - intros [H | H]; apply in_names_iff in H; destruct H as [f [Hf Hx]];
      apply filter_In in Hf; destruct Hf as [Hf Hp].
    + subst x. unfold is_added in Hp.
      destruct (is_input in_schema f) eqn:Hi.
      * left. now apply is_input_In.
      * simpl in Hp. apply negb_true_iff in Hp. right. split.
        -- now apply In_names.
        -- now apply name_in_not_In.
    + left. subst x. now apply In_names.
  - intros [Hin | [Ht Hout]].
    + destruct (name_in x (names trace_schema)) eqn:Hseen.
      * left. apply name_in_In in Hseen. apply in_names_iff in Hseen.
        destruct Hseen as [f [Hf Hx]]. apply in_names_iff.
        exists f. split; [| assumption].
        apply filter_In. split; [assumption |]. unfold is_added.
        assert (Hi : is_input in_schema f = true)
          by (apply is_input_In; now rewrite Hx).
        now rewrite Hi.
      * right. apply in_names_iff in Hin. destruct Hin as [g [Hg Hx]].
        apply in_names_iff. exists g. split; [| assumption]. apply filter_In.
        split; [assumption |]. unfold unseen. now rewrite Hx, Hseen.
    + left. apply in_names_iff in Ht. destruct Ht as [f [Hf Hx]].
      apply in_names_iff. exists f. split; [| assumption].
      apply filter_In. split; [assumption |].
      unfold is_added, is_output. rewrite Hx.
      apply name_in_not_In in Hout. rewrite Hout.
      now rewrite andb_false_r.
Qed.

Lemma new_in_names (trace_schema in_schema out_schema : Schema) (x : string) :
  In x (names (new_in (rebuild_schema trace_schema in_schema out_schema)))
  <-> In x (names in_schema)
      \/ (In x (names trace_schema) /\ ~ In x (names out_schema)).
Proof.
  rewrite rebuild_schema_eq. unfold new_in. simpl.
  rewrite names_app, in_app_iff. split.
  - intros [H | H]; [now left |]. apply in_names_iff in H.
    destruct H as [f [Hf Hx]]. apply filter_In in Hf. destruct Hf as [Hf Hp].
    apply andb_true_iff in Hp. destruct Hp as [Ha Hi].
    apply negb_true_iff in Hi. unfold is_added in Ha. rewrite Hi in Ha.
    simpl in Ha. apply negb_true_iff in Ha. subst x. right. split.
    + now apply In_names.
    + now apply name_in_not_In.
  - intros [H | [Ht Hout]]; [now left |].
    destruct (name_in x (names in_schema)) eqn:Hi.
    + left. now apply name_in_In.
    + right. apply in_names_iff in Ht. destruct Ht as [f [Hf Hx]].
      apply in_names_iff. exists f. split; [| assumption].
      apply filter_In. split; [assumption |].
      unfold is_added, is_input, is_output. rewrite Hx, Hi.
      apply name_in_not_In in Hout. now rewrite Hout.
Qed.

Lemma new_out_names (trace_schema in_schema out_schema : Schema) (x : string) :
  In x (names (new_out (rebuild_schema trace_schema in_schema out_schema)))
  <-> In x (names out_schema) \/ In x (names trace_schema).
Proof.
  rewrite rebuild_schema_eq. unfold new_out. simpl.
  rewrite names_app, in_app_iff. split.
  - intros [H | H]; [now left |]. right. apply in_names_iff in H.
    destruct H as [f [Hf Hx]]. apply filter_In in Hf. destruct Hf as [Hf _].
    subst x. now apply In_names.
  - intros [H | Ht]; [now left |].
    destruct (name_in x (names out_schema)) eqn:Ho.
    + left. now apply name_in_In.
    + right. apply in_names_iff in Ht. destruct Ht as [f [Hf Hx]].
      apply in_names_iff. exists f. split; [| assumption].
      apply filter_In. split; [assumption |].
      unfold is_added, is_output. rewrite Hx, Ho.
      now rewrite andb_false_r.
Qed.

(** X2. By name, the new trace schema and the new input schema are the
    same set: the columns of [in_schema] together with the trace columns
    that [out_schema] does not name.  What the node is declared to read
    after the repair is exactly what is looked for upstream of it. *)
Theorem rebuild_schema_trace_is_new_input
    (trace_schema in_schema out_schema : Schema) :
  let r := rebuild_schema trace_schema in_schema out_schema in
  same_names (new_trace r) (new_in r)
  /\ forall x,
       In x (names (new_trace r))
       <-> In x (names in_schema)
           \/ (In x (names trace_schema) /\ ~ In x (names out_schema)).
Proof.
  intros r. subst r. split.
  - intros x. now rewrite new_trace_names, new_in_names.
  - intros x. apply new_trace_names.
Qed.

(** X3. By name, the new output schema is the old output schema together
    with the trace: every column expected downstream of the node is a
    column of its repaired output schema. *)
Theorem rebuild_schema_output_covers_trace
    (trace_schema in_schema out_schema : Schema) :
  let r := rebuild_schema trace_schema in_schema out_schema in
  (forall x,
     In x (names (new_out r))
     <-> In x (names out_schema) \/ In x (names trace_schema))
  /\ incl (names trace_schema) (names (new_out r)).
Proof.
  intros r. subst r. split.
  - intros x. apply new_out_names.
  - intros x Hx. apply new_out_names. now right.
Qed.

Lemma filter_eq_all (A : Type) (p : A -> bool) (l : list A) :
  filter p l = l -> forall x, In x l -> p x = true.
Proof.
  induction l as [| a l IH]; simpl; [intros _ x [] |].
  destruct (p a) eqn:Ha.
  - intros H x [<- | Hx]; [assumption |]. apply IH; [| assumption].
    injection H as H'. exact H'.
  - intros H. exfalso.
    assert (Hlen : List.length (filter p l) = S (List.length l))
      by (now rewrite H).
    pose proof (filter_length_le p l) as Hle. rewrite Hlen in Hle.
    exact (PeanoNat.Nat.nle_succ_diag_l _ Hle).
Qed.

Lemma app_eq_self (A : Type) (l extra : list A) : l ++ extra = l -> extra = [].
Proof.
  intros H. apply (app_inv_head l). now rewrite app_nil_r.
Qed.

Lemma filter_nil_none (A : Type) (p : A -> bool) (l : list A) :
  filter p l = [] -> forall x, In x l -> p x = false.
Proof.
  intros H x Hx. destruct (p x) eqn:Hp; [| reflexivity].
  assert (Hin : In x (filter p l)) by (apply filter_In; now split).
  rewrite H in Hin. destruct Hin.
Qed.

Lemma rebuild_schema_unchanged_if
    (trace_schema in_schema out_schema : Schema) :
  (forall f, In f trace_schema ->
     In (name f) (names in_schema) /\ In (name f) (names out_schema)) ->
  (forall g, In g in_schema -> In (name g) (names trace_schema)) ->
  rebuild_schema trace_schema in_schema out_schema
    = (trace_schema, in_schema, out_schema).
Proof.
  intros Ht Hi. rewrite rebuild_schema_eq.
  rewrite (filter_all _ _ trace_schema), (filter_none _ _ in_schema),
    !(filter_none _ _ trace_schema), !app_nil_r; try reflexivity.
  - intros f Hf. destruct (Ht f Hf) as [_ Ho]. unfold is_output.
    apply name_in_In in Ho. rewrite Ho. now rewrite andb_false_r.
  - intros f Hf. destruct (Ht f Hf) as [Hin _]. unfold is_input.
    apply name_in_In in Hin. rewrite Hin. now rewrite andb_false_r.
  - intros g Hg. unfold unseen. apply negb_false_iff. apply name_in_In.
    now apply Hi.
  - intros f Hf. destruct (Ht f Hf) as [Hin _]. unfold is_added, is_input.
    apply name_in_In in Hin. now rewrite Hin.
Qed.

(** X4. [rebuild_schema] returns its three arguments as they are exactly
    when the fragment already agrees with the trace: every trace column is
    named in both the input and the output schema, and every input column
    is named in the trace. *)
Theorem rebuild_schema_unchanged_iff
    (trace_schema in_schema out_schema : Schema) :
  rebuild_schema trace_schema in_schema out_schema
    = (trace_schema, in_schema, out_schema)
  <-> (forall f, In f trace_schema ->
         In (name f) (names in_schema) /\ In (name f) (names out_schema))
      /\ (forall g, In g in_schema -> In (name g) (names trace_schema)).
Proof.
  rewrite rebuild_schema_eq. split.
  - intros H. injection H as Ht Hi Ho.
    apply app_eq_self in Hi. apply app_eq_self in Ho.
    assert (Hout : forall f, In f trace_schema ->
                     is_output out_schema f = true).
    { intros f Hf. pose proof (filter_nil_none _ _ _ Ho f Hf) as Hp.
      unfold is_added in Hp.
      destruct (is_input in_schema f), (is_output out_schema f);
        simpl in Hp; try discriminate; reflexivity. }
    assert (Hextra : filter (unseen trace_schema) in_schema = []).
    { destruct (filter (unseen trace_schema) in_schema) as [| g l] eqn:E;
        [reflexivity |]. exfalso.
      assert (Hg : In g (filter (unseen trace_schema) in_schema))
        by (rewrite E; now left).
      apply filter_In in Hg. destruct Hg as [_ Hg]. unfold unseen in Hg.
      apply negb_true_iff in Hg. apply name_in_not_In in Hg. apply Hg.
      apply In_names. rewrite <- Ht. apply in_or_app. right. now left. }
    rewrite Hextra, app_nil_r in Ht. split.
    + intros f Hf. split.
      * pose proof (filter_eq_all _ _ _ Ht f Hf) as Hp. unfold is_added in Hp.
        rewrite (Hout f Hf) in Hp. apply is_input_In.
        destruct (is_input in_schema f); [reflexivity | discriminate].
      * apply name_in_In. exact (Hout f Hf).
    + intros g Hg. pose proof (filter_nil_none _ _ _ Hextra g Hg) as Hp.
      unfold unseen in Hp. apply negb_false_iff in Hp. now apply name_in_In.
  - intros [Ht Hi]. rewrite <- rebuild_schema_eq.
    now apply rebuild_schema_unchanged_if.
Qed.

Lemma rebuild_schema_reconciled_stable_eq
    (trace_schema in_schema out_schema : Schema) :
  let r := rebuild_schema trace_schema in_schema out_schema in
  rebuild_schema trace_schema (new_in r) (new_out r) = r.
Proof.
  intros r.
  assert (Hout : forall f, In f trace_schema ->
                   is_output (new_out r) f = true).
  { intros f Hf. unfold is_output. apply name_in_In. subst r.
    apply new_out_names. right. now apply In_names. }
  assert (Hin : forall f, In f trace_schema ->
                  is_input (new_in r) f
                  = negb (is_added in_schema out_schema f)).
  { intros f Hf. unfold is_added.
    destruct (is_input in_schema f) eqn:Hi; simpl.
    - apply is_input_In. subst r. apply new_in_names. left.
      now apply is_input_In.
    - destruct (is_output out_schema f) eqn:Ho; simpl.
      + apply is_input_not_In. subst r. rewrite new_in_names.
        intros [H | [_ H]].
        * apply is_input_not_In in Hi. contradiction.
        * apply H. now apply name_in_In.
      + apply is_input_In. subst r. apply new_in_names. right. split.
        * now apply In_names.
        * now apply name_in_not_In. }
  assert (E1 : filter (fun f => negb (is_added (new_in r) (new_out r) f))
                 trace_schema
               = filter (fun f => negb (is_added in_schema out_schema f))
                   trace_schema).
  { apply filter_ext_in. intros f Hf. unfold is_added at 1.
    rewrite (Hin f Hf), (Hout f Hf).
    now rewrite andb_true_r, negb_involutive. }
  assert (E2 : filter (fun f => negb (is_added (new_in r) (new_out r) f)
                                && negb (is_input (new_in r) f))
                 trace_schema = []).
  { apply filter_none. intros f Hf. unfold is_added. rewrite (Hout f Hf).
    destruct (is_input (new_in r) f); reflexivity. }
  assert (E3 : filter (fun f => negb (is_added (new_in r) (new_out r) f)
                                && negb (is_output (new_out r) f))
                 trace_schema = []).
  { apply filter_none. intros f Hf. rewrite (Hout f Hf).
    now rewrite andb_false_r. }
  assert (E4 : filter (unseen trace_schema) (new_in r)
               = filter (unseen trace_schema) in_schema).
  { subst r. rewrite rebuild_schema_eq. unfold new_in. simpl.
    rewrite filter_app, (filter_none _ (unseen trace_schema) (filter _ _)).
    - apply app_nil_r.
    - intros g Hg. apply filter_In in Hg. destruct Hg as [Hg _].
      unfold unseen. apply negb_false_iff. apply name_in_In.
      now apply In_names. }
  rewrite (rebuild_schema_eq trace_schema (new_in r) (new_out r)).
  rewrite E1, E2, E3, E4, !app_nil_r.
  subst r. rewrite rebuild_schema_eq. reflexivity.
Qed.

(** X5. Repairing the same trace against the schemas a first repair
    produced gives the first result back: a fragment that has been
    reconciled with a trace is stable under a second reconciliation with
    that trace. *)
Theorem rebuild_schema_reconciled_stable
    (trace_schema in_schema out_schema : Schema) :
  let r := rebuild_schema trace_schema in_schema out_schema in
  rebuild_schema trace_schema (new_in r) (new_out r) = r.
Proof.
  intros r. subst r. apply rebuild_schema_reconciled_stable_eq.
Qed.

(** * Further properties of the backward pass *)

Lemma pop_some (A : Type) (l u : list A) (x : A) :
  pop l = Some (u, x) -> l = u ++ [x].
Proof.
  unfold pop. destruct (rev l) as [| y r] eqn:E; [discriminate |].
  intros H. inversion H; subst.
  rewrite <- (rev_involutive l), E. reflexivity.
Qed.

Lemma same_outside_refl (ps : list PYU) (n : ServingNode) : same_outside ps n n.
Proof. repeat split. Qed.

Lemma same_payloads_refl (n : ServingNode) : same_payloads n n.
Proof. intros q H. now split. Qed.

Lemma same_payloads_trans (n1 n2 n3 : ServingNode) :
  same_payloads n1 n2 -> same_payloads n2 n3 -> same_payloads n1 n3.
Proof.
  intros H12 H23 q Hq. destruct (H12 q Hq) as [Hm Hp].
  destruct (H23 q Hm) as [Hm' Hp']. split; [assumption | congruence].
Qed.

(** One pass of the loop body touches the fragment and the trace schema of
    its own party only, and keeps the processing graph of a party that had
    an input schema. *)
Lemma rebuild_party_frame (node node' : ServingNode)
    (trace_schemas trace_schemas' : dict Schema) (pyu : PYU) :
  rebuild_party node trace_schemas pyu = Ok (node', trace_schemas') ->
  same_outside [pyu] node node'
  /\ same_payloads node node'
  /\ forall q, q <> pyu ->
       Dict.get q trace_schemas' = Dict.get q trace_schemas.
Proof.
  unfold rebuild_party.
  destruct (Dict.mem pyu (input_schemas node)) eqn:Hmem; simpl.
  - unfold getitem.
    destruct (Dict.get pyu (input_schemas node)); simpl; [| discriminate].
    destruct (Dict.get pyu (output_schemas node)); simpl; [| discriminate].
    destruct (rebuild_schema _ _ _) as [[t' i] o].
    destruct (Dict.get pyu (kwargs node)) as [kw |] eqn:Hkw; simpl;
      [| discriminate].
    destruct (trace_content kw) as [dag |] eqn:Hdag; [| discriminate].
    intros H. inversion H; subst. split; [| split].
    + repeat split; simpl; apply get_set_other; intros ->; apply H0; now left.
    + intros q Hq. unfold payload_of. simpl. rewrite mem_set.
      destruct (string_dec pyu q) as [<- | Hne].
      * rewrite String.eqb_refl, get_set_same, Hkw. simpl. now split.
      * rewrite !get_set_other by assumption. rewrite Hq.
        now rewrite orb_true_r.
    + intros q Hne. apply get_set_other. congruence.
  - destruct (Dict.mem pyu (output_schemas node)); [discriminate |].
    destruct (Dict.mem pyu (kwargs node)); [discriminate |].
    intros H. inversion H; subst. split; [| split].
    + repeat split; simpl; apply get_set_other; intros ->; apply H0; now left.
    + intros q Hq. unfold payload_of. simpl. rewrite mem_set.
      destruct (string_dec pyu q) as [<- | Hne]; [congruence |].
      rewrite !get_set_other by assumption. rewrite Hq.
      now rewrite orb_true_r.
    + reflexivity.
Qed.

Lemma rebuild_node_frame (ps : list PYU) :
  forall node trace_schemas node' r,
    rebuild_node ps node trace_schemas = (node', r) ->
    same_outside ps node node'
    /\ same_payloads node node'
    /\ forall trace_schemas',
         r = Ok trace_schemas' ->
         forall q, ~ In q ps ->
           Dict.get q trace_schemas' = Dict.get q trace_schemas.
Proof.
  induction ps as [| pyu ps IH]; intros node t node' r; simpl.
  - intros H. inversion H; subst. split; [apply same_outside_refl |].
    split; [apply same_payloads_refl |]. intros t' Ht'. now inversion Ht'.
  - destruct (rebuild_party node t pyu) as [[n1 t1] | e] eqn:E.
    + intros H. apply IH in H. destruct H as [[Hn [Hp Ho]] [Hpay Ht]].
      apply rebuild_party_frame in E.
      destruct E as [[Hn1 [Hp1 Ho1]] [Hpay1 Ht1]].
      split; [| split].
      * split; [congruence |]. split; [congruence |].
        intros q Hq.
        assert (Hq1 : ~ In q [pyu]) by (intros [-> | []]; apply Hq; now left).
        assert (Hq2 : ~ In q ps) by (intros Hin; apply Hq; now right).
        destruct (Ho q Hq2) as [A [B C]]. destruct (Ho1 q Hq1) as [A1 [B1 C1]].
        repeat split; congruence.
      * exact (same_payloads_trans _ _ _ Hpay1 Hpay).
      * intros t' Hr q Hq. rewrite (Ht t' Hr q).
        -- apply Ht1. intros ->. apply Hq. now left.
        -- intros Hin. apply Hq. now right.
    + intros H. inversion H; subst. split; [apply same_outside_refl |].
      split; [apply same_payloads_refl |]. discriminate.
Qed.

Lemma Forall2_same (A : Type) (R : A -> A -> Prop) (l : list A) :
  (forall x, R x x) -> Forall2 R l l.
Proof. intros H. induction l; constructor; auto. Qed.

Lemma rebuild_nodes_frame (ps : list PYU) :
  forall rnodes trace_schemas rnodes' r,
    rebuild_nodes ps rnodes trace_schemas = (rnodes', r) ->
    Forall2 (fun n n' => same_outside ps n n' /\ same_payloads n n')
      rnodes rnodes'.
Proof.
  induction rnodes as [| node rest IH]; intros t rn' r; simpl.
  - intros H. inversion H; subst. constructor.
  - destruct (rebuild_node ps node t) as [n1 [t1 | e]] eqn:E;
      apply rebuild_node_frame in E; destruct E as [Ho [Hp _]].
    + destruct (rebuild_nodes ps rest t1) as [rest' r'] eqn:Er.
      intros H. inversion H; subst. constructor; [now split |].
      now apply (IH t1 rest' r).
    + intros H. inversion H; subst. constructor; [now split |].
      apply Forall2_same. intros x. split;
        [apply same_outside_refl | apply same_payloads_refl].
Qed.

Lemma backward_pass_frame (ps : list PYU) (ns ns' : list ServingNode)
    (trace_schemas : dict Schema) (r : Result (dict Schema)) :
  backward_pass ps ns trace_schemas = (ns', r) ->
  Forall2 (fun n n' => same_outside ps n n' /\ same_payloads n n') ns ns'.
Proof.
  unfold backward_pass.
  destruct (rebuild_nodes ps (rev ns) trace_schemas) as [rn' r'] eqn:E.
  intros H. inversion H; subst.
  apply rebuild_nodes_frame in E. apply Forall2_rev in E.
  now rewrite rev_involutive in E.
Qed.

Lemma collect_nodes_phases (ns : list ServingNode) :
  forall pre x,
    collect_nodes ns = Ok (pre ++ [x]) ->
    Forall (fun n => phase n = PREPROCESSING) pre.
Proof.
  induction ns as [| node rest IH]; intros pre x; simpl.
  - intros H. inversion H. destruct pre; discriminate.
  - destruct (phase node) eqn:Hph; [| | discriminate].
    + destruct (collect_nodes rest) as [c |] eqn:Hc; simpl; [| discriminate].
      intros H. inversion H as [Heq].
      destruct pre as [| y pre]; simpl in Heq; [constructor |].
      inversion Heq; subst. constructor; [assumption |].
      now apply (IH pre x).
    + intros H. inversion H as [Heq].
      destruct pre as [| y pre]; simpl in Heq; [constructor |].
      inversion Heq as [[Hy Hnil]]. destruct pre; discriminate.
Qed.

(** The builder a call leaves: either the builder it received, or the
    builder with the nodes upstream of the last node of the run replaced by
    what the backward pass made of them. *)
Lemma rebuild_decompose (builder : ServingBuilder) (init_schemas : dict Schema) :
  fst (rebuild_preprocessing_nodes builder init_schemas) = builder
  \/ exists upstream last_node others,
       nodes builder = upstream ++ last_node :: others
       /\ Forall (fun n => phase n = PREPROCESSING) upstream
       /\ fst (rebuild_preprocessing_nodes builder init_schemas)
          = mkServingBuilder (pyus builder)
              (fst (backward_pass (pyus builder) upstream
                      (input_schemas last_node))
                 ++ last_node :: others).
Proof.
  destruct (nodes builder) as [| first rest] eqn:Hn.
  - left. unfold rebuild_preprocessing_nodes. now rewrite Hn.
  - destruct (phase first) eqn:Hph.
    3: { left. unfold rebuild_preprocessing_nodes. now rewrite Hn, Hph. }
    all: assert (Hpost : phase first <> POSTPROCESSING)
           by (rewrite Hph; discriminate);
         destruct (rebuild_cases builder init_schemas first rest Hn Hpost)
           as [[e [_ Hr]] | [c [u [l [Hc Hp]]]]];
         [ left; now rewrite Hr
         | right; exists u, l, (skipn (List.length c) (nodes builder));
           pose proof (collect_nodes_prefix _ _ Hc) as [Hpre _];
           pose proof (pop_some _ _ _ _ Hp) as Hcu;
           split; [| split];
           [ rewrite <- Hn; rewrite Hpre at 1; rewrite Hcu;
             now rewrite <- app_assoc
           | apply (collect_nodes_phases (nodes builder) u l);
             now rewrite <- Hcu
           | now rewrite (rebuild_run _ init_schemas _ _ _ Hc Hp) ] ].
Qed.

Lemma Forall2_app_same (A : Type) (R : A -> A -> Prop) (l l' tail : list A) :
  (forall x, R x x) -> Forall2 R l l' -> Forall2 R (l ++ tail) (l' ++ tail).
Proof.
  intros Hrefl H. apply Forall2_app; [assumption | now apply Forall2_same].
Qed.

(** X6. Whatever the outcome, normal return or any error, the call leaves
    the builder with the same parties and the same nodes in the same
    order, each with its name and phase, and leaves alone the fragments of
    every party that is not in [builder.pyus]. *)
Theorem rebuild_keeps_pipeline_shape
    (builder : ServingBuilder) (init_schemas : dict Schema) :
  let builder' := fst (rebuild_preprocessing_nodes builder init_schemas) in
  pyus builder' = pyus builder
  /\ map node_name (nodes builder') = map node_name (nodes builder)
  /\ map phase (nodes builder') = map phase (nodes builder)
  /\ Forall2 (same_outside (pyus builder)) (nodes builder) (nodes builder').
Proof.
  intros builder'.
  assert (H : pyus builder' = pyus builder
              /\ Forall2 (same_outside (pyus builder))
                   (nodes builder) (nodes builder')).
  { subst builder'.
    destruct (rebuild_decompose builder init_schemas)
      as [-> | [u [l [others [Hn [_ ->]]]]]].
    - split; [reflexivity |]. apply Forall2_same. apply same_outside_refl.
    - simpl. split; [reflexivity |]. rewrite Hn.
      apply Forall2_app_same; [apply same_outside_refl |].
      destruct (backward_pass (pyus builder) u (input_schemas l))
        as [u' r] eqn:Hb.
      apply backward_pass_frame in Hb. simpl.
      eapply Forall2_impl; [| exact Hb]. intros a b [Hab _]. exact Hab. }
  destruct H as [Hp HF]. split; [assumption |].
  assert (Hmaps : map node_name (nodes builder') = map node_name (nodes builder)
                  /\ map phase (nodes builder') = map phase (nodes builder)).
  { clear - HF. induction HF as [| a b l l' [Hn [Hph _]] _ [IH1 IH2]]; simpl.
    - now split.
    - split; congruence. }
  destruct Hmaps. repeat split; assumption.
Qed.

(** X7. Whatever the outcome, a party that had an input schema in a node
    still has one afterwards and its processing graph
    ([kwargs[pyu]["trace_content"]]) is the one it had: the pass rewrites
    schemas around a payload, never the payload. *)
Theorem rebuild_keeps_payloads
    (builder : ServingBuilder) (init_schemas : dict Schema) :
  Forall2 same_payloads
    (nodes builder)
    (nodes (fst (rebuild_preprocessing_nodes builder init_schemas))).
Proof.
  destruct (rebuild_decompose builder init_schemas)
    as [-> | [u [l [others [Hn [_ ->]]]]]].
  - apply Forall2_same. apply same_payloads_refl.
  - simpl. rewrite Hn.
    apply Forall2_app_same; [apply same_payloads_refl |].
    destruct (backward_pass (pyus builder) u (input_schemas l))
      as [u' r] eqn:Hb.
    apply backward_pass_frame in Hb. simpl.
    eapply Forall2_impl; [| exact Hb]. intros a b [_ Hab]. exact Hab.
Qed.

(** X8. Whatever the outcome, the only nodes the call can rewrite are
    PREPROCESSING nodes that stand before the last node of the run: the
    pipeline splits into such a prefix and a tail that is left exactly as
    it was, and the tail of a pipeline with nodes is not empty: it holds
    the first TRAIN_PREDICT node, if there is one, and always the last
    node. *)
Theorem rebuild_rewrites_upstream_only
    (builder : ServingBuilder) (init_schemas : dict Schema) :
  exists upstream upstream' tail,
    nodes builder = upstream ++ tail
    /\ nodes (fst (rebuild_preprocessing_nodes builder init_schemas))
       = upstream' ++ tail
    /\ List.length upstream' = List.length upstream
    /\ Forall (fun n => phase n = PREPROCESSING) upstream
    /\ (nodes builder <> [] -> tail <> []).
Proof.
  destruct (rebuild_decompose builder init_schemas)
    as [-> | [u [l [others [Hn [Hpre ->]]]]]].
  - exists [], [], (nodes builder). repeat split; auto.
  - destruct (backward_pass (pyus builder) u (input_schemas l))
      as [u' r] eqn:Hb.
    apply backward_pass_frame in Hb. apply Forall2_length in Hb.
    exists u, u', (l :: others). simpl. repeat split; auto. discriminate.
Qed.

(** ** When the backward pass completes *)

Lemma rebuild_party_succeeds_iff (node : ServingNode)
    (trace_schemas : dict Schema) (pyu : PYU) :
  (exists node' trace_schemas',
     rebuild_party node trace_schemas pyu = Ok (node', trace_schemas'))
  <-> well_populated node pyu.
Proof.
  unfold rebuild_party, well_populated, payload_of, Dict.mem, getitem.
  destruct (Dict.get pyu (input_schemas node)) as [i |]; simpl.
  - destruct (Dict.get pyu (output_schemas node)) as [o |]; simpl.
    + destruct (rebuild_schema _ i o) as [[t' i'] o'].
      destruct (Dict.get pyu (kwargs node)) as [kw |]; simpl.
      * destruct (trace_content kw) as [dag |].
        -- split; [| now eexists _, _]. intros _. right.
           repeat split. now exists dag.
        -- split.
           ++ intros [n' [t1 H]]. discriminate.
           ++ intros [[H _] | [_ [_ [dag H]]]]; discriminate.
      * split.
        -- intros [n' [t1 H]]. discriminate.
        -- intros [[H _] | [_ [_ [dag H]]]]; discriminate.
    + split.
      * intros [n' [t1 H]]. discriminate.
      * intros [[H _] | [_ [H _]]]; discriminate.
  - destruct (Dict.get pyu (output_schemas node)) as [o |]; simpl.
    + split.
      * intros [n' [t1 H]]. discriminate.
      * intros [[_ [H _]] | [H _]]; discriminate.
    + destruct (Dict.get pyu (kwargs node)) as [kw |]; simpl.
      * split.
        -- intros [n' [t1 H]]. discriminate.
        -- intros [[_ [_ H]] | [H _]]; discriminate.
      * split; [| now eexists _, _]. intros _. now left.
Qed.

Lemma well_populated_after (node node' : ServingNode)
    (trace_schemas trace_schemas' : dict Schema) (pyu : PYU) :
  rebuild_party node trace_schemas pyu = Ok (node', trace_schemas') ->
  forall q, well_populated node' q <-> well_populated node q.
Proof.
  intros H q.
  assert (Hp : well_populated node pyu)
    by (apply (rebuild_party_succeeds_iff node trace_schemas pyu);
        now exists node', trace_schemas').
  pose proof (rebuild_party_frame _ _ _ _ _ H) as [[_ [_ Ho]] _].
  destruct (string_dec q pyu) as [-> | Hne].
  - split; [intros _; exact Hp | intros _].
    apply rebuild_party_add in H. destruct H as [i [o [dag ->]]].
    right. unfold payload_of, Dict.mem. simpl. rewrite !get_set_same.
    repeat split. now exists dag.
  - assert (Hq : ~ In q [pyu]) by (intros [-> | []]; now apply Hne).
    destruct (Ho q Hq) as [A [B C]].
    unfold well_populated, payload_of, Dict.mem. now rewrite A, B, C.
Qed.

Lemma rebuild_node_succeeds_iff (ps : list PYU) :
  forall node trace_schemas,
    (exists trace_schemas',
       snd (rebuild_node ps node trace_schemas) = Ok trace_schemas')
    <-> forall p, In p ps -> well_populated node p.
Proof.
  induction ps as [| pyu ps IH]; intros node t; simpl.
  - split; [intros _ p [] | intros _; now exists t].
  - destruct (rebuild_party node t pyu) as [[n1 t1] | e] eqn:E.
    + rewrite IH. pose proof (well_populated_after _ _ _ _ _ E) as Hw. split.
      * intros H p [<- | Hp]; [| apply Hw; now apply H].
        apply (rebuild_party_succeeds_iff node t pyu). now exists n1, t1.
      * intros H p Hp. apply Hw. apply H. now right.
    + simpl. split.
      * intros [t' H]. discriminate.
      * intros H. exfalso.
        assert (Hp : well_populated node pyu) by (apply H; now left).
        apply (rebuild_party_succeeds_iff node t pyu) in Hp.
        destruct Hp as [n' [t' Hp]]. congruence.
Qed.

Lemma rebuild_nodes_succeeds_iff (ps : list PYU) :
  forall rnodes trace_schemas,
    (exists trace_schemas',
       snd (rebuild_nodes ps rnodes trace_schemas) = Ok trace_schemas')
    <-> forall n, In n rnodes -> forall p, In p ps -> well_populated n p.
Proof.
  induction rnodes as [| node rest IH]; intros t; simpl.
  - split; [intros _ n [] | intros _; now exists t].
  - pose proof (rebuild_node_succeeds_iff ps node t) as Hn.
    destruct (rebuild_node ps node t) as [n1 [t1 | e]] eqn:E; simpl in Hn.
    + specialize (IH t1).
      destruct (rebuild_nodes ps rest t1) as [rest' r] eqn:Er. simpl in *.
      rewrite IH. split.
      * intros H n [<- | Hin]; [| now apply H]. apply Hn. now exists t1.
      * intros H n Hin. apply H. now right.
    + simpl. split.
      * intros [t' H]. discriminate.
      * intros H. exfalso.
        assert (Hx : exists t', Err e = Ok t')
          by (apply Hn; apply H; now left).
        destruct Hx as [t' Hx]. discriminate.
Qed.

(** X9. A backward pass that runs to its end has met only whole or absent
    fragments: every node it visited records, for every party of the
    builder, either nothing at all, or an input schema, an output schema
    and a payload with its processing graph.  A node that records only a
    part of a fragment for a party of the builder stops the pass. *)
Theorem backward_pass_needs_whole_fragments
    (ps : list PYU) (ns : list ServingNode)
    (trace_schemas trace_schemas' : dict Schema) :
  snd (backward_pass ps ns trace_schemas) = Ok trace_schemas' ->
  forall n, In n ns -> forall p, In p ps -> well_populated n p.
Proof.
  unfold backward_pass.
  pose proof (rebuild_nodes_succeeds_iff ps (rev ns) trace_schemas) as H.
  destruct (rebuild_nodes ps (rev ns) trace_schemas) as [rn' r]. simpl in *.
  intros Hr n Hn. apply H.
  - now exists trace_schemas'.
  - now apply in_rev in Hn.
Qed.

Lemma backward_pass_needs_whole_fragments_witness :
  well_populated bucket_node "alice".
Proof.
  apply (backward_pass_needs_whole_fragments ["alice"] [bucket_node]
           (input_schemas model_node)
           [("alice", [column "age"; column "income"])]).
  - reflexivity.
  - now left.
  - now left.
Defined.

(** ** A party without initial columns *)

Lemma check_parties_key_error (init_columns : dict (list string))
    (items : dict Schema) :
  forall acc key,
    check_parties init_columns items acc = Err (KeyError key) ->
    Dict.mem key init_columns = false /\ exists s, In (key, s) items.
Proof.
  induction items as [| [q s] items IH]; intros acc key; simpl;
    [discriminate |].
  unfold getitem. destruct (Dict.get q init_columns) as [cols |] eqn:E; simpl.
  - intros H. apply IH in H. destruct H as [Hm [s' Hs']].
    split; [assumption |]. exists s'. now right.
  - intros H. inversion H; subst. split.
    + unfold Dict.mem. now rewrite E.
    + exists s. now left.
Qed.

(** X10. When the backward pass has completed and some party of the final
    trace schemas has no entry in [init_schemas], the call raises
    [KeyError] for such a party, whatever the columns: the missing party is
    reported even if its trace schema is empty, and no invalid-columns
    error is raised even if other parties hold untraceable columns. *)
Theorem missing_party_raises_key_error
    (builder : ServingBuilder) (init_schemas : dict Schema)
    (collected upstream upstream' : list ServingNode)
    (last_node : ServingNode) (trace_schemas : dict Schema) :
  collect_nodes (nodes builder) = Ok collected ->
  pop collected = Some (upstream, last_node) ->
  backward_pass (pyus builder) upstream (input_schemas last_node)
    = (upstream', Ok trace_schemas) ->
  (exists p s, In (p, s) trace_schemas /\ Dict.mem p init_schemas = false) ->
  exists key s,
    snd (rebuild_preprocessing_nodes builder init_schemas)
      = Err (KeyError key)
    /\ In (key, s) trace_schemas
    /\ Dict.mem key init_schemas = false.
Proof.
  intros Hc Hp Hb [p [s [Hin Hmem]]].
  rewrite (rebuild_run _ init_schemas _ _ _ Hc Hp), Hb. simpl.
  destruct (check_columns_missing_party (init_columns_of init_schemas)
              trace_schemas) as [key Hk].
  { exists p, s. split; [assumption |]. now rewrite init_columns_mem. }
  rewrite Hk. unfold check_columns in Hk.
  destruct (check_parties (init_columns_of init_schemas) trace_schemas ([], []))
    as [[inv used] | e] eqn:E; simpl in Hk.
  - destruct (Nat.ltb 0 (List.length inv)); discriminate.
  - inversion Hk; subst. apply check_parties_key_error in E.
    destruct E as [Hm [s' Hs']]. exists key, s'.
    rewrite init_columns_mem in Hm. now repeat split.
Qed.

(** ** How the repaired fragments fit together *)

Lemma schema_of_set_same (p : string) (s : Schema) (d : dict Schema) :
  schema_of (Dict.set p s d) p = s.
Proof. unfold schema_of. now rewrite get_set_same. Qed.

(** One pass of the loop body: the party's new output schema covers the
    trace it was given, and its new input schema has the names of the trace
    it hands on. *)
Lemma rebuild_party_link (node node' : ServingNode)
    (trace_schemas trace_schemas' : dict Schema) (pyu : PYU) :
  rebuild_party node trace_schemas pyu = Ok (node', trace_schemas') ->
  incl (names (schema_of trace_schemas pyu))
       (names (schema_of (output_schemas node') pyu))
  /\ same_names (schema_of (input_schemas node') pyu)
                (schema_of trace_schemas' pyu).
Proof.
  unfold rebuild_party. fold (schema_of trace_schemas pyu).
  destruct (Dict.mem pyu (input_schemas node)); simpl.
  - unfold getitem.
    destruct (Dict.get pyu (input_schemas node)) as [i |]; simpl;
      [| discriminate].
    destruct (Dict.get pyu (output_schemas node)) as [o |]; simpl;
      [| discriminate].
    pose proof (new_out_names (schema_of trace_schemas pyu) i o) as Ho.
    pose proof (new_in_names (schema_of trace_schemas pyu) i o) as Hi.
    pose proof (new_trace_names (schema_of trace_schemas pyu) i o) as Ht.
    destruct (rebuild_schema (schema_of trace_schemas pyu) i o)
      as [[t' i'] o'].
    unfold new_out, new_in, new_trace in *. simpl in *.
    destruct (Dict.get pyu (kwargs node)) as [kw |]; simpl; [| discriminate].
    destruct (trace_content kw) as [dag |]; [| discriminate].
    intros H. inversion H; subst. simpl. rewrite !schema_of_set_same. split.
    + intros x Hx. apply Ho. now right.
    + intros x. now rewrite Hi, Ht.
  - destruct (Dict.mem pyu (output_schemas node)); [discriminate |].
    destruct (Dict.mem pyu (kwargs node)); [discriminate |].
    intros H. inversion H; subst. simpl. rewrite !schema_of_set_same. split.
    + apply incl_refl.
    + intros x. reflexivity.
Qed.

Lemma rebuild_node_link (ps : list PYU) :
  NoDup ps ->
  forall node trace_schemas node' trace_schemas',
    rebuild_node ps node trace_schemas = (node', Ok trace_schemas') ->
    forall p, In p ps ->
      incl (names (schema_of trace_schemas p))
           (names (schema_of (output_schemas node') p))
      /\ same_names (schema_of (input_schemas node') p)
                    (schema_of trace_schemas' p).
Proof.
  induction ps as [| pyu ps IH]; intros Hnd node t node' t'; simpl.
  - intros _ p [].
  - inversion Hnd as [| x l Hnotin Hnd']; subst.
    destruct (rebuild_party node t pyu) as [[n1 t1] | e] eqn:E;
      [| discriminate].
    intros H p [<- | Hp].
    + pose proof (rebuild_party_link _ _ _ _ _ E) as [L1 L2].
      apply rebuild_node_frame in H. destruct H as [[_ [_ Ho]] [_ Ht]].
      destruct (Ho pyu Hnotin) as [A [B _]].
      specialize (Ht t' eq_refl pyu Hnotin).
      unfold schema_of in *. now rewrite A, B, Ht.
    + assert (Hne : p <> pyu) by (intros ->; contradiction).
      destruct (IH Hnd' n1 t1 node' t' H p Hp) as [L1 L2].
      apply rebuild_party_frame in E. destruct E as [_ [_ Ht1]].
      split; [| exact L2]. unfold schema_of in *.
      now rewrite <- (Ht1 p Hne).
Qed.

Lemma rebuild_nodes_link (ps : list PYU) :
  NoDup ps ->
  forall rnodes trace_schemas rnodes' trace_schemas' expected,
    rebuild_nodes ps rnodes trace_schemas = (rnodes', Ok trace_schemas') ->
    (forall p, In p ps ->
       incl (names (expected p)) (names (schema_of trace_schemas p))) ->
    linked ps expected rnodes'
    /\ forall l n',
         rnodes' = l ++ [n'] ->
         forall p, In p ps ->
           same_names (schema_of (input_schemas n') p)
                      (schema_of trace_schemas' p).
Proof.
  intros Hnd. induction rnodes as [| node rest IH];
    intros t rn' t' expected; simpl.
  - intros H _. inversion H; subst. split; [exact I |].
    intros l n' Hl. destruct l; discriminate.
  - destruct (rebuild_node ps node t) as [n1 [t1 | e]] eqn:E; [| discriminate].
    destruct (rebuild_nodes ps rest t1) as [rest' r] eqn:Er.
    intros H Hexp. inversion H; subst.
    pose proof (rebuild_node_link ps Hnd _ _ _ _ E) as Hlink.
    destruct (IH t1 rest' t' (schema_of (input_schemas n1)) Er) as [Hl Hlast].
    { intros p Hp. destruct (Hlink p Hp) as [_ L2].
      intros x Hx. now apply L2. }
    split.
    + simpl. split; [| exact Hl]. intros p Hp x Hx.
      destruct (Hlink p Hp) as [L1 _]. apply L1. now apply Hexp.
    + intros l n' Heq p Hp. destruct l as [| y l]; simpl in Heq.
      * inversion Heq; subst. destruct rest as [| r0 rest].
        -- simpl in Er. inversion Er; subst. now apply (Hlink p Hp).
        -- simpl in Er.
           destruct (rebuild_node ps r0 t1) as [r1 [t2 | e2]];
             [| discriminate].
           destruct (rebuild_nodes ps rest t2). discriminate.
      * inversion Heq; subst. now apply (Hlast l n').
Qed.

Lemma linked_adjacent (ps : list PYU) :
  forall rnodes' expected l1 x y l2,
    linked ps expected rnodes' ->
    rnodes' = l1 ++ x :: y :: l2 ->
    forall p, In p ps -> feeds y x p.
Proof.
  induction rnodes' as [| n rest IH]; intros expected l1 x y l2 Hl Heq.
  - destruct l1; discriminate.
  - simpl in Hl. destruct Hl as [_ Hrest].
    destruct l1 as [| z l1]; simpl in Heq; inversion Heq; subst.
    + simpl in Hrest. destruct Hrest as [Hy _]. exact Hy.
    + now apply (IH _ l1 x y l2 Hrest).
Qed.

(** X11. After a completed backward pass over a builder whose parties are
    distinct, consecutive fragments compose: taking the rewritten nodes in
    pipeline order, followed by the last node of the run, the output
    schema of each node names, for every party of the builder, every column
    that the input schema of the next node names. *)
Theorem repaired_fragments_compose
    (ps : list PYU) (ns ns' : list ServingNode) (last_node : ServingNode)
    (trace_schemas' : dict Schema) :
  NoDup ps ->
  backward_pass ps ns (input_schemas last_node) = (ns', Ok trace_schemas') ->
  forall l1 a b l2,
    ns' ++ [last_node] = l1 ++ a :: b :: l2 ->
    forall p, In p ps -> feeds a b p.
Proof.
  intros Hnd. unfold backward_pass.
  destruct (rebuild_nodes ps (rev ns) (input_schemas last_node))
    as [rn' r] eqn:E.
  intros H. inversion H; subst. clear H.
  destruct (rebuild_nodes_link ps Hnd _ _ _ _
              (schema_of (input_schemas last_node)) E) as [Hl _].
  { intros p _. apply incl_refl. }
  intros l1 a b l2 Heq p Hp.
  destruct (@exists_last _ (a :: b :: l2)) as [l [z Hz]]; [discriminate |].
  rewrite Hz, app_assoc in Heq. apply app_inj_tail in Heq.
  destruct Heq as [Hns Hlast]. subst z.
  destruct l2 as [| c l2].
  - change [a; b] with ([a] ++ [b]) in Hz. apply app_inj_tail in Hz.
    destruct Hz as [<- ->].
    assert (Hrn : rn' = a :: rev l1).
    { rewrite <- (rev_involutive rn'), Hns, rev_app_distr. reflexivity. }
    rewrite Hrn in Hl. simpl in Hl. destruct Hl as [Ha _].
    unfold feeds. now apply Ha.
  - destruct (@exists_last _ (c :: l2)) as [l2' [z' Hz']]; [discriminate |].
    rewrite Hz' in Hz.
    change (a :: b :: l2' ++ [z']) with ((a :: b :: l2') ++ [z']) in Hz.
    apply app_inj_tail in Hz. destruct Hz as [<- _].
    assert (Hrn : rn' = rev l2' ++ b :: a :: rev l1).
    { rewrite <- (rev_involutive rn'), Hns, rev_app_distr. simpl.
      now rewrite <- !app_assoc. }
    now apply (linked_adjacent ps rn' _ (rev l2') b a (rev l1) Hl Hrn).
Qed.

Lemma repaired_fragments_compose_witness :
  NoDup ["alice"; "bob"]
  /\ forall l1 a b l2,
       fst (backward_pass ["alice"; "bob"] [two_party_node]
              (input_schemas two_party_model)) ++ [two_party_model]
         = l1 ++ a :: b :: l2 ->
       forall p, In p ["alice"; "bob"] -> feeds a b p.
Proof.
  assert (Hnd : NoDup ["alice"; "bob"]).
  { repeat constructor; simpl; intros H;
      repeat (destruct H as [H | H]; [discriminate |]); exact H. }
  split; [exact Hnd |].
  apply (repaired_fragments_compose ["alice"; "bob"] [two_party_node]
           (fst (backward_pass ["alice"; "bob"] [two_party_node]
                   (input_schemas two_party_model)))
           two_party_model
           [("alice", [column "a"; column "u"]);
            ("bob", [column "b"; column "v"])]).
  - exact Hnd.
  - reflexivity.
Defined.

(** X12. After a completed backward pass over a builder whose parties are
    distinct, the final trace schema of every party of the builder has
    exactly the column names of the rewritten input schema of the first
    node: the columns validated against the initial table are the columns
    the first fragment is declared to read. *)
Theorem final_trace_is_first_input
    (ps : list PYU) (first : ServingNode) (rest ns' : list ServingNode)
    (trace_schemas trace_schemas' : dict Schema) :
  NoDup ps ->
  backward_pass ps (first :: rest) trace_schemas = (ns', Ok trace_schemas') ->
  exists first' rest',
    ns' = first' :: rest'
    /\ node_name first' = node_name first
    /\ forall p, In p ps ->
         same_names (schema_of (input_schemas first') p)
                    (schema_of trace_schemas' p).
Proof.
  intros Hnd Hb. pose proof (backward_pass_frame _ _ _ _ _ Hb) as HF.
  revert Hb. unfold backward_pass.
  destruct (rebuild_nodes ps (rev (first :: rest)) trace_schemas)
    as [rn' r] eqn:E.
  intros H. inversion H; subst. clear H.
  inversion HF as [| x y l l' [[Hname _] _] _ Hx Hy]; subst.
  exists y, l'. split; [reflexivity |]. split; [assumption |].
  destruct (rebuild_nodes_link ps Hnd _ _ _ _
              (schema_of trace_schemas) E) as [_ Hlast].
  { intros p _. apply incl_refl. }
  apply (Hlast (rev l') y).
  rewrite <- (rev_involutive rn'), <- Hy. reflexivity.
Qed.

Lemma final_trace_is_first_input_witness :
  exists first' rest',
    fst (backward_pass ["alice"] [bucket_node] (input_schemas model_node))
      = first' :: rest'
    /\ node_name first' = node_name bucket_node
    /\ forall p, In p ["alice"] ->
         same_names (schema_of (input_schemas first') p)
                    (schema_of [("alice", [column "age"; column "income"])] p).
Proof.
  apply (final_trace_is_first_input ["alice"] bucket_node []
           (fst (backward_pass ["alice"] [bucket_node]
                   (input_schemas model_node)))
           (input_schemas model_node)).
  - repeat constructor. intros [].
  - reflexivity.
Defined.

(** ** Running the reconciler again *)

Lemma set_same (V : Type) (k : string) (v : V) (d : dict V) :
  Dict.get k d = Some v -> Dict.set k v d = d.
Proof.
  induction d as [| [k' v'] d IH]; simpl; [discriminate |].
  destruct (String.eqb k k') eqn:E.
  - intros H. inversion H. reflexivity.
  - intros H. f_equal. now apply IH.
Qed.

Lemma add_same (m : ServingNode) (p : PYU) (i o : Schema) (kw : Kwargs) :
  Dict.get p (input_schemas m) = Some i ->
  Dict.get p (output_schemas m) = Some o ->
  Dict.get p (kwargs m) = Some kw ->
  add m p i o kw = m.
Proof.
  intros Hi Ho Hk. destruct m as [nm ph ins outs kws]. unfold add. simpl in *.
  now rewrite (set_same _ _ _ _ Hi), (set_same _ _ _ _ Ho),
    (set_same _ _ _ _ Hk).
Qed.

Lemma same_traces_set (p : string) (s : Schema) (t u : dict Schema) :
  same_traces t u -> same_traces (Dict.set p s t) (Dict.set p s u).
Proof.
  intros H q. unfold schema_of. destruct (string_dec p q) as [<- | Hne].
  - now rewrite !get_set_same.
  - rewrite !get_set_other by assumption. apply H.
Qed.

Lemma same_traces_set_own (p : string) (t u : dict Schema) :
  same_traces t u -> same_traces t (Dict.set p (schema_of u p) u).
Proof.
  intros H q. unfold schema_of at 2. destruct (string_dec p q) as [<- | Hne].
  - rewrite get_set_same. apply H.
  - rewrite get_set_other by assumption. apply H.
Qed.

Lemma rebuild_schema_self (s : Schema) : rebuild_schema s s s = (s, s, s).
Proof.
  apply rebuild_schema_unchanged_if.
  - intros f Hf. split; now apply In_names.
  - intros g Hg. now apply In_names.
Qed.

(** A pass of the loop body that succeeded succeeds again on any node that
    holds the fragment it installed, and leaves that node as it is. *)
Lemma rebuild_party_stable (n n1 : ServingNode) (t t1 : dict Schema)
    (p : PYU) :
  rebuild_party n t p = Ok (n1, t1) ->
  forall m u,
    agree_on p m n1 ->
    same_traces t u ->
    exists u1, rebuild_party m u p = Ok (m, u1) /\ same_traces t1 u1.
Proof.
  intros H m u [Ai [Ao Ak]] Htu. revert H. unfold rebuild_party.
  fold (schema_of t p). fold (schema_of u p). rewrite <- (Htu p).
  destruct (Dict.mem p (input_schemas n)); simpl.
  - unfold getitem.
    destruct (Dict.get p (input_schemas n)) as [i |]; simpl; [| discriminate].
    destruct (Dict.get p (output_schemas n)) as [o |]; simpl; [| discriminate].
    pose proof (rebuild_schema_reconciled_stable_eq (schema_of t p) i o) as Hs.
    destruct (rebuild_schema (schema_of t p) i o) as [[t' i'] o'].
    unfold new_in, new_out in Hs. simpl in Hs.
    destruct (Dict.get p (kwargs n)) as [kw |]; simpl; [| discriminate].
    destruct (trace_content kw) as [dag |]; [| discriminate].
    intros H. inversion H; subst. simpl in Ai, Ao, Ak.
    rewrite get_set_same in Ai, Ao, Ak.
    unfold Dict.mem. rewrite Ai, Ao, Ak. simpl. rewrite Hs. simpl.
    rewrite (add_same m p i' o' _ Ai Ao Ak).
    eexists. split; [reflexivity |]. now apply same_traces_set.
  - destruct (Dict.mem p (output_schemas n)); [discriminate |].
    destruct (Dict.mem p (kwargs n)); [discriminate |].
    intros H. inversion H; subst. simpl in Ai, Ao, Ak.
    rewrite get_set_same in Ai, Ao, Ak.
    unfold Dict.mem, getitem. rewrite Ai, Ao, Ak. simpl.
    rewrite rebuild_schema_self. simpl.
    rewrite (add_same m p _ _ _ Ai Ao Ak).
    eexists. split; [reflexivity |].
    rewrite (Htu p). now apply same_traces_set_own.
Qed.

(** A pass of the loop body that failed fails the same way on any node
    with the same fragment for the party, whatever the trace. *)
Lemma rebuild_party_fails_again (n : ServingNode) (t : dict Schema)
    (p : PYU) (e : Error) :
  rebuild_party n t p = Err e ->
  forall m u, agree_on p m n -> rebuild_party m u p = Err e.
Proof.
  intros H m u [Ai [Ao Ak]]. revert H. unfold rebuild_party, Dict.mem, getitem.
  rewrite Ai, Ao, Ak.
  destruct (Dict.get p (input_schemas n)) as [i |]; simpl.
  - destruct (Dict.get p (output_schemas n)) as [o |]; simpl; [| trivial].
    destruct (rebuild_schema _ i o) as [[t' i'] o'].
    destruct (rebuild_schema _ i o) as [[u' i''] o''].
    destruct (Dict.get p (kwargs n)) as [kw |]; simpl; [| trivial].
    destruct (trace_content kw); [discriminate | trivial].
  - destruct (Dict.get p (output_schemas n)); [trivial |].
    destruct (Dict.get p (kwargs n)); [trivial | discriminate].
Qed.

Lemma agree_on_refl (p : PYU) (m : ServingNode) : agree_on p m m.
Proof. repeat split. Qed.

Lemma agree_on_trans (p : PYU) (a b c : ServingNode) :
  agree_on p a b -> agree_on p b c -> agree_on p a c.
Proof.
  intros [A1 [A2 A3]] [B1 [B2 B3]]. repeat split; congruence.
Qed.

Lemma same_outside_agree (ps : list PYU) (n n' : ServingNode) (p : PYU) :
  same_outside ps n n' -> ~ In p ps -> agree_on p n' n.
Proof. intros [_ [_ H]] Hp. exact (H p Hp). Qed.

Lemma same_traces_refl (t : dict Schema) : same_traces t t.
Proof. intros p. reflexivity. Qed.

(** The per-party loop, run again on the node it left and on trace
    schemas that agree with those of the first run, leaves the node as it
    is and ends the same way. *)
Lemma rebuild_node_stable (ps : list PYU) :
  NoDup ps ->
  forall n t N r,
    rebuild_node ps n t = (N, r) ->
    forall m u,
      (forall p, In p ps -> agree_on p m N) ->
      same_traces t u ->
      exists r', rebuild_node ps m u = (m, r') /\ same_outcome r r'.
Proof.
  induction ps as [| p ps IH]; intros Hnd n t N r; simpl.
  - intros H m u _ Htu. inversion H; subst. exists (Ok u). now split.
  - inversion Hnd as [| x l Hnotin Hnd']; subst.
    destruct (rebuild_party n t p) as [[n1 t1] | e] eqn:E.
    + intros H m u Hagree Htu.
      pose proof (rebuild_node_frame ps _ _ _ _ H) as [Hout _].
      assert (Hm : agree_on p m n1).
      { apply (agree_on_trans p m N n1); [apply Hagree; now left |].
        now apply (same_outside_agree ps). }
      destruct (rebuild_party_stable _ _ _ _ _ E m u Hm Htu) as [u1 [E' Htu1]].
      rewrite E'. apply (IH Hnd' n1 t1 N r H m u1); [| assumption].
      intros q Hq. apply Hagree. now right.
    + intros H m u Hagree _. inversion H; subst.
      rewrite (rebuild_party_fails_again _ _ _ _ E m u (Hagree p (or_introl eq_refl))).
      exists (Err e). now split.
Qed.

Lemma rebuild_nodes_stable (ps : list PYU) :
  NoDup ps ->
  forall rn t RN r,
    rebuild_nodes ps rn t = (RN, r) ->
    forall u,
      same_traces t u ->
      exists r', rebuild_nodes ps RN u = (RN, r') /\ same_outcome r r'.
Proof.
  intros Hnd. induction rn as [| n rest IH]; intros t RN r; simpl.
  - intros H u Htu. inversion H; subst. exists (Ok u). now split.
  - destruct (rebuild_node ps n t) as [N [t1 | e]] eqn:E.
    + destruct (rebuild_nodes ps rest t1) as [REST r0] eqn:Er.
      intros H u Htu. inversion H; subst.
      destruct (rebuild_node_stable ps Hnd _ _ _ _ E N u) as [r1 [E1 Ho1]];
        [intros q _; apply agree_on_refl | assumption |].
      destruct r1 as [u1 | e1]; simpl in Ho1; [| contradiction].
      destruct (IH t1 REST r Er u1 Ho1) as [r' [E2 Ho2]].
      simpl. rewrite E1, E2. exists r'. now split.
    + intros H u Htu. inversion H; subst.
      destruct (rebuild_node_stable ps Hnd _ _ _ _ E N u) as [r1 [E1 Ho1]];
        [intros q _; apply agree_on_refl | assumption |].
      destruct r1 as [u1 | e1]; simpl in Ho1; [contradiction |]. subst e1.
      simpl. rewrite E1. exists (Err e). now split.
Qed.

Lemma backward_pass_stable (ps : list PYU) (ns NS : list ServingNode)
    (t : dict Schema) (r : Result (dict Schema)) :
  NoDup ps ->
  backward_pass ps ns t = (NS, r) ->
  exists r', backward_pass ps NS t = (NS, r') /\ same_outcome r r'.
Proof.
  intros Hnd. unfold backward_pass.
  destruct (rebuild_nodes ps (rev ns) t) as [RN r0] eqn:E.
  intros H. inversion H; subst.
  destruct (rebuild_nodes_stable ps Hnd _ _ _ _ E t (same_traces_refl t))
    as [r' [E' Ho]].
  exists r'. rewrite rev_involutive, E'. now split.
Qed.

(** The first loop looks at phases only. *)
Lemma collect_nodes_last (u : list ServingNode) (l : ServingNode)
    (others : list ServingNode) :
  collect_nodes (u ++ l :: others) = Ok (u ++ [l]) ->
  phase l = TRAIN_PREDICT \/ (phase l = PREPROCESSING /\ others = []).
Proof.
  induction u as [| x u IH]; simpl.
  - destruct (phase l) eqn:Hl; [| now left | discriminate].
    destruct (collect_nodes others) as [c |] eqn:Hc; simpl; [| discriminate].
    intros H. inversion H; subst. right. split; [reflexivity |].
    destruct others as [| o others]; [reflexivity |].
    destruct (collect_nodes_prefix _ _ Hc) as [_ Hne].
    exfalso. apply Hne; [discriminate | reflexivity].
  - destruct (phase x); [| | discriminate].
    + destruct (collect_nodes (u ++ l :: others)) as [c |] eqn:Hc; simpl;
        [| discriminate].
      intros H. inversion H; subst. now apply IH.
    + intros H. inversion H as [Heq]. destruct u; discriminate.
Qed.

Lemma collect_nodes_build (u : list ServingNode) (l : ServingNode)
    (others : list ServingNode) :
  Forall (fun n => phase n = PREPROCESSING) u ->
  phase l = TRAIN_PREDICT \/ (phase l = PREPROCESSING /\ others = []) ->
  collect_nodes (u ++ l :: others) = Ok (u ++ [l]).
Proof.
  intros Hu Hl. induction Hu as [| x u Hx _ IH]; simpl.
  - destruct Hl as [-> | [-> ->]]; reflexivity.
  - now rewrite Hx, IH.
Qed.

Lemma skipn_past (A : Type) (u : list A) (l : A) (others : list A) :
  skipn (List.length (u ++ [l])) (u ++ l :: others) = others.
Proof.
  induction u as [| x u IH]; simpl; [reflexivity | exact IH].
Qed.

Lemma frame_keeps_preprocessing (ps : list PYU) (ns ns' : list ServingNode) :
  Forall2 (fun n n' => same_outside ps n n' /\ same_payloads n n') ns ns' ->
  Forall (fun n => phase n = PREPROCESSING) ns ->
  Forall (fun n => phase n = PREPROCESSING) ns'.
Proof.
  induction 1 as [| a b la lb [[_ [Hph _]] _] _ IH]; intros Hu.
  - constructor.
  - inversion Hu; subst. constructor; [congruence | now apply IH].
Qed.

(** The builder a completed first loop leads to, and what a second call
    makes of it. *)
Lemma rebuild_again_after_run
    (builder : ServingBuilder) (init_schemas : dict Schema)
    (c u : list ServingNode) (l : ServingNode) :
  NoDup (pyus builder) ->
  collect_nodes (nodes builder) = Ok c ->
  pop c = Some (u, l) ->
  fst (rebuild_preprocessing_nodes
         (fst (rebuild_preprocessing_nodes builder init_schemas))
         init_schemas)
  = fst (rebuild_preprocessing_nodes builder init_schemas).
Proof.
  intros Hnd Hc Hp.
  pose proof (collect_nodes_prefix _ _ Hc) as [Hpre _].
  pose proof (pop_some _ _ _ _ Hp) as Hcu. subst c.
  remember (skipn (List.length (u ++ [l])) (nodes builder)) as others
    eqn:Hothers.
  assert (Hnodes : nodes builder = u ++ l :: others)
    by (rewrite Hpre at 1; now rewrite <- app_assoc).
  assert (Hfirst : fst (rebuild_preprocessing_nodes builder init_schemas)
                   = mkServingBuilder (pyus builder)
                       (fst (backward_pass (pyus builder) u (input_schemas l))
                          ++ l :: others)).
  { rewrite (rebuild_run _ init_schemas _ _ _ Hc Hp). simpl.
    now rewrite <- Hothers. }
  rewrite Hfirst.
  destruct (backward_pass (pyus builder) u (input_schemas l)) as [U r] eqn:Hb.
  simpl.
  pose proof (backward_pass_frame _ _ _ _ _ Hb) as HF.
  assert (HU : Forall (fun n => phase n = PREPROCESSING) U).
  { apply (frame_keeps_preprocessing _ _ _ HF).
    exact (collect_nodes_phases _ _ _ Hc). }
  assert (Hl : phase l = TRAIN_PREDICT
               \/ (phase l = PREPROCESSING /\ others = [])).
  { apply (collect_nodes_last u). now rewrite <- Hnodes. }
  pose proof (collect_nodes_build U l others HU Hl) as Hc'.
  pose proof (pop_app _ U l) as Hp'.
  rewrite (rebuild_run (mkServingBuilder (pyus builder) (U ++ l :: others))
             init_schemas (U ++ [l]) U l Hc' Hp').
  simpl nodes. simpl pyus. rewrite skipn_past.
  destruct (backward_pass_stable _ _ _ _ _ Hnd Hb) as [r' [Hb' _]].
  now rewrite Hb'.
Qed.

(** X13. On a builder whose parties are distinct the reconciler is
    idempotent on the pipeline: whatever the first call did, normal return
    or any error, a second call on the builder it left leaves that builder
    exactly as it is. *)
Theorem rebuild_idempotent_on_builder
    (builder : ServingBuilder) (init_schemas : dict Schema) :
  NoDup (pyus builder) ->
  let builder' := fst (rebuild_preprocessing_nodes builder init_schemas) in
  fst (rebuild_preprocessing_nodes builder' init_schemas) = builder'.
Proof.
  intros Hnd builder'. subst builder'.
  destruct (nodes builder) as [| first rest] eqn:Hn.
  - assert (Hr : rebuild_preprocessing_nodes builder init_schemas
                 = (builder, Err AssertEmptyNodes))
      by (unfold rebuild_preprocessing_nodes; now rewrite Hn).
    rewrite Hr. simpl. now rewrite Hr.
  - destruct (phase first) eqn:Hph.
    3: { assert (Hr : rebuild_preprocessing_nodes builder init_schemas
                      = (builder, Ok []))
           by (unfold rebuild_preprocessing_nodes; now rewrite Hn, Hph).
         rewrite Hr. simpl. now rewrite Hr. }
    all: assert (Hpost : phase first <> POSTPROCESSING)
           by (rewrite Hph; discriminate);
         destruct (rebuild_cases builder init_schemas first rest Hn Hpost)
           as [[e [_ Hr]] | [c [u [l [Hc Hp]]]]];
         [ rewrite Hr; simpl; now rewrite Hr
         | now apply (rebuild_again_after_run builder init_schemas c u l) ].
Qed.

Lemma rebuild_idempotent_on_builder_witness :
  let builder' :=
    fst (rebuild_preprocessing_nodes two_party_builder two_party_init) in
  fst (rebuild_preprocessing_nodes builder' two_party_init) = builder'.
Proof.
  apply (rebuild_idempotent_on_builder two_party_builder two_party_init).
  simpl. repeat constructor; simpl; intros H;
    repeat (destruct H as [H | H]; [discriminate |]); exact H.
Defined.

Lemma missing_party_raises_key_error_witness :
  exists key s,
    snd (rebuild_preprocessing_nodes carol_builder two_party_init)
      = Err (KeyError key)
    /\ In (key, s) (input_schemas carol_model)
    /\ Dict.mem key two_party_init = false.
Proof.
  apply (missing_party_raises_key_error carol_builder two_party_init
           [carol_model] [] [] carol_model (input_schemas carol_model)).
  - reflexivity.
  - reflexivity.
  - reflexivity.
  - exists "carol", []. split; [right; left; reflexivity | reflexivity].
Defined.

(** ** The parties of the trace schemas *)

Lemma In_mem (V : Type) (k : string) (v : V) (d : dict V) :
  In (k, v) d -> Dict.mem k d = true.
Proof.
  unfold Dict.mem. induction d as [| [k' v'] d IH]; simpl; [intros [] |].
  destruct (String.eqb k k') eqn:E; [reflexivity |].
  intros [H | H]; [| now apply IH].
  inversion H. subst. now rewrite String.eqb_refl in E.
Qed.

Lemma rebuild_party_trace_keys (node node' : ServingNode)
    (t t' : dict Schema) (pyu : PYU) :
  rebuild_party node t pyu = Ok (node', t') ->
  forall q s, In (q, s) t' -> q = pyu \/ In (q, s) t.
Proof.
  unfold rebuild_party.
  destruct (Dict.mem pyu (input_schemas node)); simpl.
  - unfold getitem.
    destruct (Dict.get pyu (input_schemas node)); simpl; [| discriminate].
    destruct (Dict.get pyu (output_schemas node)); simpl; [| discriminate].
    destruct (rebuild_schema _ _ _) as [[t1 i] o].
    destruct (Dict.get pyu (kwargs node)) as [kw |]; simpl; [| discriminate].
    destruct (trace_content kw); [| discriminate].
    intros H. inversion H; subst. intros q sq Hin. apply In_set in Hin.
    destruct Hin as [[-> _] | Hin]; [now left | now right].
  - destruct (Dict.mem pyu (output_schemas node)); [discriminate |].
    destruct (Dict.mem pyu (kwargs node)); [discriminate |].
    intros H. inversion H; subst. intros q sq Hin. now right.
Qed.

Lemma rebuild_node_trace_keys (ps : list PYU) :
  forall node t node' t',
    rebuild_node ps node t = (node', Ok t') ->
    forall q s, In (q, s) t' -> In q ps \/ Dict.mem q t = true.
Proof.
  induction ps as [| pyu ps IH]; intros node t node' t'; simpl.
  - intros H. inversion H; subst. intros q s Hin. right.
    now apply (In_mem _ q s).
  - destruct (rebuild_party node t pyu) as [[n1 t1] |] eqn:E; [| discriminate].
    intros H q s Hin. destruct (IH _ _ _ _ H q s Hin) as [Hq | Hq].
    + left. now right.
    + unfold Dict.mem in Hq.
      destruct (Dict.get q t1) as [s1 |] eqn:E1; [| discriminate].
      apply get_In in E1.
      destruct (rebuild_party_trace_keys _ _ _ _ _ E q s1 E1) as [-> | Hin'].
      * left. now left.
      * right. now apply (In_mem _ q s1).
Qed.

Lemma rebuild_nodes_trace_keys (ps : list PYU) :
  forall rnodes t rnodes' t',
    rebuild_nodes ps rnodes t = (rnodes', Ok t') ->
    forall q s, In (q, s) t' -> In q ps \/ Dict.mem q t = true.
Proof.
  induction rnodes as [| node rest IH]; intros t rn' t'; simpl.
  - intros H. inversion H; subst. intros q s Hin. right.
    now apply (In_mem _ q s).
  - destruct (rebuild_node ps node t) as [n1 [t1 | e]] eqn:E; [| discriminate].
    destruct (rebuild_nodes ps rest t1) as [rest' r] eqn:Er.
    intros H. inversion H; subst. intros q s Hin.
    destruct (IH _ _ _ Er q s Hin) as [Hq | Hq]; [now left |].
    unfold Dict.mem in Hq.
    destruct (Dict.get q t1) as [s1 |] eqn:E1; [| discriminate].
    apply get_In in E1. exact (rebuild_node_trace_keys ps _ _ _ _ E q s1 E1).
Qed.

(** X14. The validation cannot fail on a missing party when the initial
    table covers the builder and the model: if every party of
    [builder.pyus] and every party of the last node's input schemas has an
    entry in [init_schemas], a completed backward pass is followed by a
    normal return or by the invalid-columns error, never by [KeyError]. *)
Theorem covered_parties_never_key_error
    (builder : ServingBuilder) (init_schemas : dict Schema)
    (collected upstream upstream' : list ServingNode)
    (last_node : ServingNode) (trace_schemas : dict Schema) :
  collect_nodes (nodes builder) = Ok collected ->
  pop collected = Some (upstream, last_node) ->
  backward_pass (pyus builder) upstream (input_schemas last_node)
    = (upstream', Ok trace_schemas) ->
  (forall p, In p (pyus builder) -> Dict.mem p init_schemas = true) ->
  (forall p, Dict.mem p (input_schemas last_node) = true ->
             Dict.mem p init_schemas = true) ->
  (forall p s, In (p, s) trace_schemas -> Dict.mem p init_schemas = true)
  /\ ((exists used_columns,
         snd (rebuild_preprocessing_nodes builder init_schemas)
           = Ok used_columns)
      \/ (exists invalid_columns,
            snd (rebuild_preprocessing_nodes builder init_schemas)
              = Err (ValueError invalid_columns))).
Proof.
  intros Hc Hp Hb Hps Hlast.
  assert (Hcov : forall p s,
             In (p, s) trace_schemas -> Dict.mem p init_schemas = true).
  { intros p s Hin. revert Hb. unfold backward_pass.
    destruct (rebuild_nodes (pyus builder) (rev upstream)
                (input_schemas last_node)) as [rn' r] eqn:E.
    intros H. inversion H; subst.
    destruct (rebuild_nodes_trace_keys _ _ _ _ _ E p s Hin) as [Hq | Hq];
      [now apply Hps | now apply Hlast]. }
  split; [exact Hcov |].
  rewrite (rebuild_run _ init_schemas _ _ _ Hc Hp), Hb. simpl.
  assert (Hcov' : forall p s,
             In (p, s) trace_schemas ->
             Dict.mem p (init_columns_of init_schemas) = true).
  { intros p s Hin. rewrite init_columns_mem. now apply (Hcov p s). }
  destruct (check_parties_total _ _ Hcov' ([], [])) as [[inv used] E].
  unfold check_columns. rewrite E. simpl.
  destruct (Nat.ltb 0 (List.length inv)); [right | left]; now eexists.
Qed.

Lemma covered_parties_never_key_error_witness :
  (forall p s,
     In (p, s)
       [("alice", [column "a"; column "u"]); ("bob", [column "b"; column "v"])] ->
     Dict.mem p two_party_init = true)
  /\ ((exists used_columns,
         snd (rebuild_preprocessing_nodes two_party_builder two_party_init)
           = Ok used_columns)
      \/ (exists invalid_columns,
            snd (rebuild_preprocessing_nodes two_party_builder two_party_init)
              = Err (ValueError invalid_columns))).
Proof.
  apply (covered_parties_never_key_error two_party_builder two_party_init
           [two_party_node; two_party_model] [two_party_node]
           (fst (backward_pass (pyus two_party_builder) [two_party_node]
                   (input_schemas two_party_model)))
           two_party_model).
  - reflexivity.
  - reflexivity.
  - reflexivity.
  - intros p [<- | [<- | []]]; reflexivity.
  - intros p. simpl. unfold Dict.mem. simpl.
    destruct (String.eqb p "alice") eqn:Ea.
    + apply String.eqb_eq in Ea. now subst.
    + destruct (String.eqb p "bob") eqn:Eb; [| discriminate].
      apply String.eqb_eq in Eb. now subst.
Defined.

(** * Properties of the helpers of [evaluate] *)

Lemma export_kwargs_fold (Value : Type) (self_dict : dict Value)
    (sig : list (string * Annotation)) (k : string) :
  forall kwargs,
    Dict.get k (fold_left (export_kwargs_step self_dict) sig kwargs)
    = if existsb (fun np => String.eqb k (fst np)
                            && negb (supplied_by_caller (snd np))) sig
      then match Dict.get k self_dict with
           | Some v => Some v
           | None => Dict.get k kwargs
           end
      else Dict.get k kwargs.
Proof.
  induction sig as [| [nm a] sig IH]; intros kwargs; simpl; [reflexivity |].
  rewrite IH. destruct (supplied_by_caller a); simpl.
  - now rewrite andb_false_r.
  - rewrite andb_true_r. destruct (String.eqb k nm) eqn:E; simpl.
    + apply String.eqb_eq in E. subst nm.
      destruct (Dict.get k self_dict) as [v |] eqn:Hk.
      * rewrite get_set_same. now destruct (existsb _ sig).
      * now destruct (existsb _ sig).
    + apply String.eqb_neq in E.
      destruct (Dict.get nm self_dict) as [v |]; [| reflexivity].
      rewrite get_set_other by congruence. reflexivity.
Qed.

(** X15. [get_export_kwargs] forwards an attribute of the exporting
    component exactly when [export] has a parameter of that name whose
    annotation is neither [Context] nor [ServingBuilder], and forwards it
    with the attribute's value: nothing [export] did not ask for, and never
    the context or the builder. *)
Theorem get_export_kwargs_forwards_iff (Value : Type)
    (self_dict : dict Value) (sig : list (string * Annotation))
    (k : string) (v : Value) :
  Dict.get k (get_export_kwargs self_dict sig) = Some v
  <-> Dict.get k self_dict = Some v
      /\ exists param_type,
           In (k, param_type) sig /\ supplied_by_caller param_type = false.
Proof.
  unfold get_export_kwargs. rewrite export_kwargs_fold. simpl.
  destruct (existsb _ sig) eqn:E.
  - apply existsb_exists in E. destruct E as [[nm a] [Hin Hp]]. simpl in Hp.
    apply andb_true_iff in Hp. destruct Hp as [Hk Ha].
    apply String.eqb_eq in Hk. subst nm. apply negb_true_iff in Ha.
    destruct (Dict.get k self_dict) as [v' |].
    + split; [intros H; split; [assumption | now exists a] | tauto].
    + split; [discriminate | intros [H _]; discriminate].
  - split; [discriminate |]. intros [_ [a [Hin Ha]]]. exfalso.
    assert (Hex : existsb (fun np => String.eqb k (fst np)
                                     && negb (supplied_by_caller (snd np)))
                    sig = true).
    { apply existsb_exists. exists (k, a). split; [assumption |]. simpl.
      now rewrite String.eqb_refl, Ha. }
    congruence.
Qed.

Lemma filter_singleton (A : Type) (p : A -> bool) (l : list A) (d : A) :
  filter p l = [d] ->
  exists l1 l2,
    l = l1 ++ d :: l2
    /\ p d = true
    /\ (forall x, In x l1 -> p x = false)
    /\ (forall x, In x l2 -> p x = false).
Proof.
  induction l as [| a l IH]; simpl; [discriminate |].
  destruct (p a) eqn:Ha.
  - intros H. injection H as -> Hnil. exists [], l. repeat split; auto.
    + intros x [].
    + now apply filter_nil_none.
  - intros H. destruct (IH H) as [l1 [l2 [-> [Hd [H1 H2]]]]].
    exists (a :: l1), l2. repeat split; auto.
    intros x [<- | Hx]; auto.
Qed.

(** X16. When the first parameter names a registered component with [n]
    declared inputs, [get_init_table] looks at the first [n] datasets only:
    it hands [VTable.from_distdata] the vertical table among them when
    there is exactly one, and raises [InvalidArgumentError] for any other
    count, zero included.  A vertical table fed to a later component is
    never taken. *)
Theorem get_init_table_selects
    (get_definition_by_id : string -> option CompDefinition)
    (parse_minor : string -> nat) (VTable : Type)
    (from_distdata : DistData -> Outcome VTable)
    (input_datasets : list DistData)
    (first_param : NodeEvalParam) (params : list NodeEvalParam)
    (comp_def : CompDefinition) :
  get_definition_by_id (comp_id first_param) = Some comp_def ->
  let n := List.length
             (get_input_defs comp_def (parse_minor (version comp_def))) in
  let result :=
    get_init_table get_definition_by_id parse_minor VTable from_distdata
      input_datasets (first_param :: params) in
  (exists l1 d l2,
     firstn n input_datasets = l1 ++ d :: l2
     /\ is_vertical_table d = true
     /\ (forall x, In x l1 -> is_vertical_table x = false)
     /\ (forall x, In x l2 -> is_vertical_table x = false)
     /\ result = from_distdata d)
  \/ (List.length (filter is_vertical_table (firstn n input_datasets)) <> 1
      /\ result
         = Raised (InvalidArgumentError
                     "only support one vertical_table input for now")).
Proof.
  intros Hdef n result. subst result. unfold get_init_table. rewrite Hdef.
  fold n.
  destruct (filter is_vertical_table (firstn n input_datasets))
    as [| d [| d' l]] eqn:E; simpl.
  - right. split; [discriminate | reflexivity].
  - left. destruct (filter_singleton _ _ _ _ E) as [l1 [l2 [H1 [H2 [H3 H4]]]]].
    exists l1, d, l2. repeat split; assumption.
  - right. split; [discriminate | reflexivity].
Qed.

Lemma get_init_table_selects_witness :
  let result :=
    get_init_table example_registry (fun _ => 0) DistData
      (fun d => Returned d) example_datasets
      [mkNodeEvalParam "preprocessing/binning"] in
  (exists l1 d l2,
     firstn 2 example_datasets = l1 ++ d :: l2
     /\ is_vertical_table d = true
     /\ (forall x, In x l1 -> is_vertical_table x = false)
     /\ (forall x, In x l2 -> is_vertical_table x = false)
     /\ result = Returned d)
  \/ (List.length (filter is_vertical_table (firstn 2 example_datasets)) <> 1
      /\ result
         = Raised (InvalidArgumentError
                     "only support one vertical_table input for now")).
Proof.
  apply (get_init_table_selects example_registry (fun _ => 0) DistData
           (fun d => Returned d) example_datasets
           (mkNodeEvalParam "preprocessing/binning") [] binning_definition).
  reflexivity.
Defined.

(** * Name uniqueness along the whole call *)

Lemma rebuild_node_names_unique_any (ps : list PYU) :
  forall node t node' r,
    unique_names t ->
    node_names_unique node ->
    rebuild_node ps node t = (node', r) ->
    node_names_unique node'
    /\ forall t', r = Ok t' -> unique_names t'.
Proof.
  induction ps as [| pyu ps IH]; intros node t node' r Ht Hn; simpl.
  - intros H. inversion H; subst. split; [assumption |].
    intros t' Ht'. now inversion Ht'; subst.
  - destruct (rebuild_party node t pyu) as [[n1 t1] | e] eqn:E.
    + destruct Hn as [Hi Ho].
      apply (rebuild_party_names_unique _ _ _ _ _ Ht Hi Ho) in E.
      destruct E as [Ht1 [Hi1 Ho1]]. apply IH; [assumption | now split].
    + intros H. inversion H; subst. split; [assumption | discriminate].
Qed.

Lemma rebuild_nodes_names_unique_any (ps : list PYU) :
  forall rnodes t rnodes' r,
    unique_names t ->
    Forall node_names_unique rnodes ->
    rebuild_nodes ps rnodes t = (rnodes', r) ->
    Forall node_names_unique rnodes'.
Proof.
  induction rnodes as [| node rest IH]; intros t rn' r Ht Hall; simpl.
  - intros H. inversion H; subst. constructor.
  - inversion Hall as [| x l Hnode Hrest]; subst.
    destruct (rebuild_node ps node t) as [n1 [t1 | e]] eqn:E;
      destruct (rebuild_node_names_unique_any ps _ _ _ _ Ht Hnode E)
        as [Hn1 Ht1].
    + destruct (rebuild_nodes ps rest t1) as [rest' r'] eqn:Er.
      intros H. inversion H; subst. constructor; [assumption |].
      apply (IH t1 rest' r); auto.
    + intros H. inversion H; subst. now constructor.
Qed.

(** X17. Name uniqueness is an invariant of the call: if, in the builder
    it receives, every input and output schema of every node names each of
    its fields once, the same holds in the builder it leaves, on a normal
    return and on every error. *)
Theorem rebuild_keeps_names_unique
    (builder : ServingBuilder) (init_schemas : dict Schema) :
  Forall node_names_unique (nodes builder) ->
  Forall node_names_unique
    (nodes (fst (rebuild_preprocessing_nodes builder init_schemas))).
Proof.
  intros Hall.
  destruct (rebuild_decompose builder init_schemas)
    as [-> | [u [l [others [Hn [_ ->]]]]]]; [assumption |].
  simpl. rewrite Hn in Hall. apply Forall_app in Hall.
  destruct Hall as [Hu Hrest]. apply Forall_app. split; [| assumption].
  inversion Hrest as [| x y [Hl _] _]; subst.
  unfold backward_pass.
  destruct (rebuild_nodes (pyus builder) (rev u) (input_schemas l))
    as [rn' r] eqn:E. simpl.
  apply Forall_rev.
  apply (rebuild_nodes_names_unique_any _ _ _ _ _ Hl (Forall_rev Hu) E).
Qed.

Lemma rebuild_keeps_names_unique_witness :
  Forall node_names_unique
    (nodes (fst (rebuild_preprocessing_nodes alice_builder alice_init))).
Proof.
  apply (rebuild_keeps_names_unique alice_builder alice_init).
  assert (Hnd : forall a b : string, a <> b -> NoDup [a; b]).
  { intros a b Hab. constructor; [intros [H | []]; now apply Hab |].
    constructor; [intros [] | constructor]. }
  assert (H1 : NoDup ["score"]) by (constructor; [intros [] | constructor]).
  repeat constructor; intros p s Hin; simpl in Hin;
    repeat (destruct Hin as [Hin | Hin]; [inversion Hin; subst; simpl |]);
    try (destruct Hin); try exact H1; apply Hnd; discriminate.
Defined.

(** * Manufactured columns along the pipeline *)

(** One pass of the loop body keeps a manufactured column manufactured, and
    takes its name out of the trace schema of the party it works for. *)
Lemma rebuild_party_manufactures (node node' : ServingNode)
    (trace_schemas trace_schemas' : dict Schema) (pyu p : PYU) (x : string) :
  rebuild_party node trace_schemas pyu = Ok (node', trace_schemas') ->
  manufactures node p x ->
  manufactures node' p x
  /\ (pyu = p -> ~ In x (names (schema_of trace_schemas' p)))
  /\ (pyu <> p -> schema_of trace_schemas' p = schema_of trace_schemas p).
Proof.
  intros H [Hout Hin]. destruct (string_dec pyu p) as [-> | Hne].
  - revert H. unfold rebuild_party. fold (schema_of trace_schemas p).
    unfold schema_of in Hout, Hin.
    destruct (Dict.mem p (input_schemas node)); simpl.
    + unfold getitem.
      destruct (Dict.get p (input_schemas node)) as [i |]; simpl;
        [| discriminate].
      destruct (Dict.get p (output_schemas node)) as [o |]; simpl;
        [| discriminate].
      pose proof (new_out_names (schema_of trace_schemas p) i o x) as Ho.
      pose proof (new_in_names (schema_of trace_schemas p) i o x) as Hi.
      pose proof (new_trace_names (schema_of trace_schemas p) i o x) as Ht.
      destruct (rebuild_schema (schema_of trace_schemas p) i o)
        as [[t' i'] o'].
      unfold new_out, new_in, new_trace in *. simpl in *.
      destruct (Dict.get p (kwargs node)) as [kw |]; simpl; [| discriminate].
      destruct (trace_content kw) as [dag |]; [| discriminate].
      intros H. inversion H; subst. unfold manufactures. simpl.
      rewrite !schema_of_set_same. repeat split.
      * apply Ho. now left.
      * rewrite Hi. tauto.
      * intros _. rewrite Ht. tauto.
      * intros Hne. now contradiction Hne.
    + unfold Dict.mem.
      destruct (Dict.get p (output_schemas node)); [discriminate |].
      now destruct Hout.
  - pose proof (rebuild_party_frame _ _ _ _ _ H) as [[_ [_ Ho]] [_ Ht]].
    assert (Hp : ~ In p [pyu]) by (intros [-> | []]; now apply Hne).
    destruct (Ho p Hp) as [A [B _]].
    unfold manufactures, schema_of in *. rewrite A, B.
    repeat split; try assumption.
    + intros E. now contradiction Hne.
    + intros _. rewrite Ht; [reflexivity | congruence].
Qed.

(** After the loop over the parties, the trace schema of a party the loop
    visited does not name a column the node manufactures for it. *)
Lemma rebuild_node_manufactures (ps : list PYU) (p : PYU) (x : string) :
  forall node trace_schemas node' trace_schemas',
    rebuild_node ps node trace_schemas = (node', Ok trace_schemas') ->
    manufactures node p x ->
    In p ps \/ ~ In x (names (schema_of trace_schemas p)) ->
    ~ In x (names (schema_of trace_schemas' p)).
Proof.
  induction ps as [| pyu ps IH]; intros node t node' t'; simpl.
  - intros H _ [[] | Hx]. now inversion H; subst.
  - destruct (rebuild_party node t pyu) as [[n1 t1] | e] eqn:E;
      [| discriminate].
    intros H Hm Hor.
    destruct (rebuild_party_manufactures _ _ _ _ _ p x E Hm)
      as [Hm1 [Hsame Hother]].
    apply (IH n1 t1 node' t' H Hm1).
    destruct (string_dec pyu p) as [Heq | Hne].
    + right. now apply Hsame.
    + destruct Hor as [[Heq | Hp] | Hx].
      * contradiction.
      * now left.
      * right. now rewrite (Hother Hne).
Qed.

(** A column name of a trace schema after one pass of the loop body was in
    that trace schema before, or is named by the input schema the node
    records for the party. *)
Lemma rebuild_party_origin (node node' : ServingNode)
    (trace_schemas trace_schemas' : dict Schema) (pyu p : PYU) (x : string) :
  rebuild_party node trace_schemas pyu = Ok (node', trace_schemas') ->
  (In x (names (schema_of trace_schemas' p)) ->
   In x (names (schema_of trace_schemas p))
   \/ In x (names (schema_of (input_schemas node) p)))
  /\ (In x (names (schema_of (input_schemas node') p)) ->
      In x (names (schema_of trace_schemas p))
      \/ In x (names (schema_of (input_schemas node) p))).
Proof.
  intros H. destruct (string_dec pyu p) as [-> | Hne].
  - revert H. unfold rebuild_party, schema_of.
    remember (match Dict.get p trace_schemas with
              | Some s => s
              | None => []
              end) as tr eqn:Etr.
    destruct (Dict.mem p (input_schemas node)); simpl.
    + unfold getitem.
      destruct (Dict.get p (input_schemas node)) as [i |]; simpl;
        [| discriminate].
      destruct (Dict.get p (output_schemas node)) as [o |]; simpl;
        [| discriminate].
      pose proof (new_in_names tr i o x) as Hi.
      pose proof (new_trace_names tr i o x) as Ht.
      destruct (rebuild_schema tr i o) as [[t' i'] o'].
      unfold new_in, new_trace in *. simpl in *.
      destruct (Dict.get p (kwargs node)) as [kw |]; simpl; [| discriminate].
      destruct (trace_content kw) as [dag |]; [| discriminate].
      intros H. inversion H; subst trace_schemas' node'. simpl.
      rewrite !get_set_same. rewrite Hi, Ht. tauto.
    + destruct (Dict.mem p (output_schemas node)); [discriminate |].
      destruct (Dict.mem p (kwargs node)); [discriminate |].
      intros H. inversion H; subst trace_schemas' node'. simpl.
      rewrite !get_set_same, <- Etr. tauto.
  - pose proof (rebuild_party_frame _ _ _ _ _ H) as [[_ [_ Ho]] [_ Ht]].
    assert (Hp : ~ In p [pyu]) by (intros [-> | []]; now apply Hne).
    destruct (Ho p Hp) as [A _].
    unfold schema_of. rewrite A, Ht by congruence. tauto.
Qed.

Lemma rebuild_node_origin (ps : list PYU) (p : PYU) (x : string) :
  forall node trace_schemas node' trace_schemas',
    rebuild_node ps node trace_schemas = (node', Ok trace_schemas') ->
    (In x (names (schema_of trace_schemas' p)) ->
     In x (names (schema_of trace_schemas p))
     \/ In x (names (schema_of (input_schemas node) p))).
Proof.
  induction ps as [| pyu ps IH]; intros node t node' t'; simpl.
  - intros H Hx. inversion H; subst. now left.
  - destruct (rebuild_party node t pyu) as [[n1 t1] | e] eqn:E;
      [| discriminate].
    intros H Hx.
    destruct (rebuild_party_origin _ _ _ _ _ p x E) as [Ht Hi].
    destruct (IH n1 t1 node' t' H Hx) as [H1 | H1]; auto.
Qed.

Lemma rebuild_nodes_origin (ps : list PYU) (p : PYU) (x : string) :
  forall rnodes trace_schemas rnodes' trace_schemas',
    rebuild_nodes ps rnodes trace_schemas = (rnodes', Ok trace_schemas') ->
    In x (names (schema_of trace_schemas' p)) ->
    In x (names (schema_of trace_schemas p))
    \/ exists m, In m rnodes /\ In x (names (schema_of (input_schemas m) p)).
Proof.
  induction rnodes as [| node rest IH]; intros t rn' t'; simpl.
  - intros H Hx. inversion H; subst. now left.
  - destruct (rebuild_node ps node t) as [n1 [t1 | e]] eqn:E; [| discriminate].
    destruct (rebuild_nodes ps rest t1) as [rest' r] eqn:Er.
    intros H Hx. inversion H; subst.
    destruct (IH t1 rest' t' Er Hx) as [H1 | [m [Hm H1]]].
    + destruct (rebuild_node_origin ps p x _ _ _ _ E H1) as [H2 | H2].
      * now left.
      * right. exists node. split; [now left | assumption].
    + right. exists m. split; [now right | assumption].
Qed.

(** A completed loop over a list of nodes is a completed loop over its
    first part followed by a completed loop over the rest. *)
Lemma rebuild_nodes_app (ps : list PYU) :
  forall l1 l2 trace_schemas rnodes' trace_schemas',
    rebuild_nodes ps (l1 ++ l2) trace_schemas = (rnodes', Ok trace_schemas') ->
    exists l1' l2' middle,
      rebuild_nodes ps l1 trace_schemas = (l1', Ok middle)
      /\ rebuild_nodes ps l2 middle = (l2', Ok trace_schemas').
Proof.
  induction l1 as [| node l1 IH]; intros l2 t rn' t'; simpl.
  - intros H. exists [], rn', t. now split.
  - destruct (rebuild_node ps node t) as [n1 [t1 | e]] eqn:E; [| discriminate].
    destruct (rebuild_nodes ps (l1 ++ l2) t1) as [rest' r] eqn:Er.
    intros H. inversion H; subst.
    destruct (IH l2 t1 rest' t' Er) as [l1' [l2' [middle [H1 H2]]]].
    exists (n1 :: l1'), l2', middle. rewrite H1. now split.
Qed.

(** The column [x] does come back in this pipeline: [make_x] manufactures
    it, so the trace that leaves [make_x] does not name it, but [consume_x]
    upstream reads a column of that name and the call returns it among the
    used columns. *)
Lemma manufactured_column_used_counterexample :
  let trace_schema := schema_of (input_schemas recycled_model) "alice" in
  let in_schema := schema_of (input_schemas make_x) "alice" in
  let out_schema := schema_of (output_schemas make_x) "alice" in
  In (column "x") trace_schema
  /\ is_output out_schema (column "x") = true
  /\ is_input in_schema (column "x") = false
  /\ new_trace (rebuild_schema trace_schema in_schema out_schema)
     = [column "a"]
  /\ snd (rebuild_preprocessing_nodes recycled_builder recycled_init)
     = Ok ["a"; "x"]
  /\ In "x" ["a"; "x"].
Proof.
  simpl. repeat split.
  - right. now left.
  - right. now left.
Qed.

(** C5. A trace field whose name is in [out_schema] but not in [in_schema]
    (a column the node manufactured) is dropped by [rebuild_schema]: no
    field of the new trace schema carries its name, so the name is not
    handed to the trace upstream of the node, and validating that new trace
    schema adds it to no used-columns list.  Along a completed backward
    pass, once a node that manufactures column [x] for a party [p] of the
    builder has been visited, the final trace schema of [p] (whose names
    are the used columns of [p]) names [x] only if a node upstream of the
    manufacturing node records for [p] an input schema that names [x]. *)
Theorem manufactured_column_from_upstream_only :
  (forall (trace_schema in_schema out_schema : Schema) (f : Field),
     In f trace_schema ->
     is_output out_schema f = true ->
     is_input in_schema f = false ->
     let trace_schema' :=
       new_trace (rebuild_schema trace_schema in_schema out_schema) in
     ~ In f trace_schema'
     /\ ~ In (name f) (names trace_schema')
     /\ forall pyu cols invalid_columns used_columns,
          ~ In (name f) used_columns ->
          ~ In (name f)
              (snd (fold_left (check_field pyu cols) trace_schema'
                      (invalid_columns, used_columns))))
  /\ (forall (ps : list PYU) (upstream downstream ns' : list ServingNode)
        (node : ServingNode) (trace_schemas trace_schemas' : dict Schema)
        (p : PYU) (x : string),
        backward_pass ps (upstream ++ node :: downstream) trace_schemas
          = (ns', Ok trace_schemas') ->
        In p ps ->
        manufactures node p x ->
        In x (names (schema_of trace_schemas' p)) ->
        exists m,
          In m upstream /\ In x (names (schema_of (input_schemas m) p))).
Proof.
  split.
  - intros trace_schema in_schema out_schema f Hin Hout Hnin.
    now apply rebuild_schema_drops_manufactured.
  - intros ps upstream downstream ns' node t t' p x Hb Hp Hm Hx.
    unfold backward_pass in Hb.
    destruct (rebuild_nodes ps (rev (upstream ++ node :: downstream)) t)
      as [rn' r] eqn:E.
    inversion Hb; subst. clear Hb.
    rewrite rev_app_distr in E. simpl in E. rewrite <- app_assoc in E.
    simpl in E.
    apply rebuild_nodes_app in E.
    destruct E as [down' [rest' [middle [_ E]]]]. simpl in E.
    destruct (rebuild_node ps node middle) as [n1 [t1 | e]] eqn:En;
      [| discriminate].
    destruct (rebuild_nodes ps (rev upstream) t1) as [up' r] eqn:Eu.
    inversion E; subst. clear E.
    assert (Hdrop : ~ In x (names (schema_of t1 p))).
    { apply (rebuild_node_manufactures ps p x _ _ _ _ En Hm). now left. }
    destruct (rebuild_nodes_origin ps p x _ _ _ _ Eu Hx) as [H | [m [Hin H]]].
    + contradiction.
    + exists m. split; [| assumption]. now apply in_rev.
Qed.

Lemma manufactured_column_from_upstream_only_witness :
  (let trace_schema' :=
     new_trace
       (rebuild_schema
          [column "age"; column "income_bucket"]
          [column "age"; column "income"]
          [column "age"; column "income_bucket"]) in
   ~ In (column "income_bucket") trace_schema'
   /\ ~ In (name (column "income_bucket")) (names trace_schema')
   /\ forall pyu cols invalid_columns used_columns,
        ~ In (name (column "income_bucket")) used_columns ->
        ~ In (name (column "income_bucket"))
            (snd (fold_left (check_field pyu cols) trace_schema'
                    (invalid_columns, used_columns))))
  /\ exists m,
       In m [consume_x]
       /\ In "x" (names (schema_of (input_schemas m) "alice")).
Proof.
  destruct manufactured_column_from_upstream_only as [Hstep Hpass]. split.
  - apply (Hstep
             [column "age"; column "income_bucket"]
             [column "age"; column "income"]
             [column "age"; column "income_bucket"]
             (column "income_bucket")).
    + simpl. right. left. reflexivity.
    + reflexivity.
    + reflexivity.
  - apply (Hpass ["alice"] [consume_x] []
             (fst (backward_pass ["alice"] [consume_x; make_x]
                     (input_schemas recycled_model)))
             make_x (input_schemas recycled_model)
             [("alice", [column "a"; column "x"])] "alice" "x").
    + reflexivity.
    + now left.
    + split.
      * simpl. right. now left.
      * simpl. intros [H | []]. discriminate.
    + simpl. right. now left.
Defined.
